(** * Coroutine drivers of the async-JS codelab

    A shallow embedding of the simple [co()] driver
    (co-simple-solution.js), of the [co()] driver with error handling
    (the solution the README calls co-error-solution.js) and of the
    hand-written [adder] state machine
    (solutions/generator-error-propagation-solution.js), with the
    properties their design note states about them. *)

From Stdlib Require Import ZArith String List Bool Lia Floats.
Import ListNotations.

Set Implicit Arguments.

(** ** JavaScript values *)

(** The two [TypeError]s the drivers can provoke: calling a property that
    is not a function ([(5).then(...)]) and reading a property of
    [undefined] ([undefined.then], [undefined.done]). *)
Inductive type_error : Type :=
| NotAFunction
| ReadOfUndefined.

(** A promise is recorded by the way its executor settled it.  A promise
    yielded by a routine is listed with the state in which the event loop
    will find it; [PPending] is a promise on which nobody has called
    [resolve] or [reject]. *)
Inductive jsval : Type :=
| VUndefined
| VNum (n : Z)
| VStr (s : string)
| VError (msg : string)
| VTypeError (k : type_error)
| VPromise (p : promise)
with promise : Type :=
| PPending
| PResolved (v : jsval)
| PRejected (e : jsval).

(** [function deferred(val) { return new Promise((resolve, reject) => resolve(val)); }] *)
Definition deferred (val : jsval) : jsval := VPromise (PResolved val).

(** [function deferReject(e) { return new Promise((resolve, reject) => reject(e)); }] *)
Definition deferReject (e : jsval) : jsval := VPromise (PRejected e).

(** What the callbacks registered with [then] get to see.  A promise
    resolved with another promise follows that promise. *)
Inductive settlement : Type :=
| Fulfilled (v : jsval)
| Rejected (e : jsval)
| Unsettled.

Fixpoint fate (p : promise) : settlement :=
  match p with
  | PPending => Unsettled
  | PRejected e => Rejected e
  | PResolved (VPromise q) => fate q
  | PResolved v => Fulfilled v
  end.

Definition is_promise (v : jsval) : bool :=
  match v with VPromise _ => true | _ => false end.

Definition is_pending (p : promise) : bool :=
  match p with PPending => true | _ => false end.

(** ** Routines *)

(** The record [{done: ..., value: ...}] returned by [g.next] and
    [g.throw]. *)
Record IterResult : Type := mkIter { done : bool; value : jsval }.

(** A call of [g.next] or [g.throw] either returns such a record or
    raises. *)
Inductive completion : Type :=
| Returns (ret : IterResult)
| Raises (e : jsval).

(** The object [g = generator()]: some private state and the two entry
    points, each of which updates the state and completes. *)
Record Routine : Type := mkRoutine {
  RState : Type;
  g_init : RState;
  g_next : RState -> jsval -> RState * completion;
  g_throw : RState -> jsval -> RState * completion
}.

(** The two ways of resuming: [g.next(v)] and [g.throw(e)]. *)
Inductive input : Type :=
| Next (v : jsval)
| ThrowIn (e : jsval).

Definition resume (R : Routine) (s : RState R) (i : input)
  : RState R * completion :=
  match i with
  | Next v => g_next R s v
  | ThrowIn e => g_throw R s e
  end.

(** ** Driver configurations *)

(** What a driver does, in the order in which it does it. *)
Inductive event : Type :=
| EResume (i : input) (c : completion)   (* g.next / g.throw and its completion *)
| EAwait (p : promise)                   (* ret.value.then(...) *)
| ESettled (p : promise)                 (* the awaited promise fires its callback *)
| EResolve (v : jsval)                   (* resolve(v) is called *)
| EReject (e : jsval)                    (* reject(e) is called *)
| EUncaught (e : jsval).                 (* an exception leaves a then-callback *)

(** The closure of [co]: the routine [g], the promise under construction
    (the Driver Result), the callbacks registered on yielded promises and
    not yet fired, and the history. *)
Record driver (S : Type) : Type := mkDriver {
  gen : S;
  result : promise;
  subs : list promise;
  trace : list event
}.

Section Closure.
Variable St : Type.

Definition log (e : event) (d : driver St) : driver St :=
  mkDriver (gen d) (result d) (subs d) (trace d ++ [e]).

(** The resolving functions of a promise: only the first call counts. *)
Definition resolve (v : jsval) (d : driver St) : driver St :=
  let d := log (EResolve v) d in
  if is_pending (result d)
  then mkDriver (gen d) (PResolved v) (subs d) (trace d)
  else d.

Definition reject (e : jsval) (d : driver St) : driver St :=
  let d := log (EReject e) d in
  if is_pending (result d)
  then mkDriver (gen d) (PRejected e) (subs d) (trace d)
  else d.

(** [g] has moved to [s'] while completing the resumption [i] with [c]. *)
Definition resumed (i : input) (c : completion) (s' : St) (d : driver St)
  : driver St :=
  mkDriver s' (result d) (subs d) (trace d ++ [EResume i c]).

(** [v.then(...)]: a promise takes the callbacks; anything else has no
    [then] to call. *)
Definition then_ (v : jsval) (d : driver St) : driver St * option jsval :=
  match v with
  | VPromise p =>
      (mkDriver (gen d) (result d) (subs d ++ [p]) (trace d ++ [EAwait p]), None)
  | VUndefined => (d, Some (VTypeError ReadOfUndefined))
  | _ => (d, Some (VTypeError NotAFunction))
  end.

Definition set_subs (l : list promise) (d : driver St) : driver St :=
  mkDriver (gen d) (result d) l (trace d).

(** An exception that leaves a then-callback rejects the promise that
    [then] returned, which nobody holds. *)
Definition swallow (r : driver St * option jsval) : driver St :=
  match snd r with
  | Some e => log (EUncaught e) (fst r)
  | None => fst r
  end.

(** An exception that leaves the executor of [new Promise] rejects the
    promise. *)
Definition executor (r : driver St * option jsval) : driver St :=
  match snd r with
  | Some e => reject e (fst r)
  | None => fst r
  end.

(** The event loop of a driver whose registered callbacks are [fire]: one
    turn fires the callbacks of one registered promise that has settled. *)
Section Loop.
Variable fire : promise -> driver St -> option (driver St).

Inductive step : driver St -> driver St -> Prop :=
| step_fire d d' pre p post :
    subs d = pre ++ p :: post ->
    fire p (set_subs (pre ++ post) d) = Some d' ->
    step d d'.

Inductive steps : driver St -> driver St -> Prop :=
| steps_refl d : steps d d
| steps_cons d1 d2 d3 : step d1 d2 -> steps d2 d3 -> steps d1 d3.

Definition tick (d : driver St) : driver St :=
  match subs d with
  | [] => d
  | p :: rest =>
      match fire p (set_subs rest d) with
      | Some d' => d'
      | None => d
      end
  end.

Fixpoint run (n : nat) (d : driver St) : driver St :=
  match n with
  | O => d
  | S k => run k (tick d)
  end.
End Loop.
End Closure.

(** ** Reading a history *)

(** The resumptions performed so far. *)
Fixpoint inputs (t : list event) : list input :=
  match t with
  | [] => []
  | EResume i _ :: t' => i :: inputs t'
  | _ :: t' => inputs t'
  end.

Definition resumptions {St} (d : driver St) : list input := inputs (trace d).

(** The calls of [resolve] and [reject] made so far, as promise states. *)
Fixpoint settle_calls (t : list event) : list promise :=
  match t with
  | [] => []
  | EResolve v :: t' => PResolved v :: settle_calls t'
  | EReject e :: t' => PRejected e :: settle_calls t'
  | _ :: t' => settle_calls t'
  end.

(** The values with which resumptions finished ([done] true). *)
Fixpoint finals (t : list event) : list jsval :=
  match t with
  | [] => []
  | EResume _ (Returns ret) :: t' =>
      if done ret then value ret :: finals t' else finals t'
  | _ :: t' => finals t'
  end.

Definition jsval_eq_dec : forall a b : jsval, {a = b} + {a <> b}.
Proof.
  fix IHv 1 with (promise_eq_dec (p q : promise) {struct p} : {p = q} + {p <> q}).
  - decide equality; try apply Z.eq_dec; try apply string_dec.
    decide equality.
  - decide equality.
Defined.

Definition promise_eq_dec : forall p q : promise, {p = q} + {p <> q}.
Proof. decide equality; apply jsval_eq_dec. Defined.

Definition input_eq_dec : forall i j : input, {i = j} + {i <> j}.
Proof. decide equality; apply jsval_eq_dec. Defined.

(** Where a driver stands between two resumptions: nothing has been done
    yet ([Ready]); a resumption has returned ([Running]); a promise is
    awaited ([Awaiting]); or the awaited promise has settled, [i] being
    the resumption its settlement calls for ([Settled]). *)
Inductive phase : Type :=
| Ready
| Running
| Awaiting (p : promise)
| Settled (i : input).

(** The strictly sequential discipline.  The routine is resumed only at
    the start, with no input, or once the awaited promise has settled, and
    then with what it settled with; a promise is awaited only when a
    resumption has returned; and a promise is seen to settle only if it is
    the one awaited and it has settled indeed. *)
Definition advance (ph : phase) (e : event) : option phase :=
  match e with
  | EResume i _ =>
      match ph with
      | Ready =>
          if input_eq_dec i (Next VUndefined) then Some Running else None
      | Settled j => if input_eq_dec i j then Some Running else None
      | _ => None
      end
  | EAwait p => match ph with Running => Some (Awaiting p) | _ => None end
  | ESettled p =>
      match ph with
      | Awaiting q =>
          if promise_eq_dec p q then
            match fate p with
            | Fulfilled v => Some (Settled (Next v))
            | Rejected e => Some (Settled (ThrowIn e))
            | Unsettled => None
            end
          else None
      | _ => None
      end
  | EResolve _ | EReject _ | EUncaught _ => Some ph
  end.

Definition phase_of (t : list event) : option phase :=
  fold_left
    (fun o e => match o with Some ph => advance ph e | None => None end)
    t (Some Ready).

Definition sequential (t : list event) : Prop := phase_of t <> None.

(** The promises a phase leaves outstanding. *)
Definition outstanding (ph : phase) : list promise :=
  match ph with Awaiting p => [p] | _ => [] end.

(** A driver keeps order when its history obeys the discipline and it
    holds exactly the callbacks that the history leaves outstanding. *)
Definition orderly {St} (d : driver St) : Prop :=
  exists ph, phase_of (trace d) = Some ph /\ subs d = outstanding ph.

(** The Driver Result is single-assignment when it is the first of the
    calls of [resolve] and [reject] made so far ([PPending] when there was
    none), and exposes nothing partial when a value it is resolved with
    is one with which a resumption finished. *)
Definition first_call_wins {St} (d : driver St) : Prop :=
  result d = hd PPending (settle_calls (trace d)).

Definition nothing_partial {St} (d : driver St) : Prop :=
  forall v, result d = PResolved v -> In v (finals (trace d)).

(** ** Runs of a routine under a driver *)

(** [reaches R deliver s i l s' i']: resumed in state [s] with [i], the
    routine yields a promise, is resumed with what the driver makes of
    that promise's settlement, yields again, and so on; [l] lists the
    resumptions that follow [i], and the routine ends up in state [s']
    about to be resumed with [i'] (the last of [i :: l]). *)
Inductive reaches (R : Routine) (deliver : promise -> option input)
  : RState R -> input -> list input -> RState R -> input -> Prop :=
| reaches_here s i : reaches R deliver s i [] s i
| reaches_await s i s1 p j l s' i' :
    resume R s i = (s1, Returns (mkIter false (VPromise p))) ->
    deliver p = Some j ->
    reaches R deliver s1 j l s' i' ->
    reaches R deliver s i (j :: l) s' i'.

(** ** co-simple-solution.js *)

Module CoSimple.
Section Co.
Variable R : Routine.

(** [function next(nextVal)] *)
Definition next (nextVal : jsval) (d : driver (RState R))
  : driver (RState R) * option jsval :=
  let (s', c) := g_next R (gen d) nextVal in
  let d1 := resumed (Next nextVal) c s' d in
  match c with
  | Raises e => (d1, Some e)
  | Returns ret =>
      if done ret then (resolve (value ret) d1, None)
      else then_ (value ret) d1
  end.

(** [function co(generator)]: the executor instantiates the routine and
    calls [next()]. *)
Definition co : driver (RState R) :=
  executor (next VUndefined (mkDriver (g_init R) PPending [] [])).

(** [ret.value.then(next)] registers [next] for fulfilment only. *)
Definition fire (p : promise) (d : driver (RState R))
  : option (driver (RState R)) :=
  let d := log (ESettled p) d in
  match fate p with
  | Fulfilled v => Some (swallow (next v d))
  | Rejected e => Some (log (EUncaught e) d)
  | Unsettled => None
  end.

(** The resumption that follows the settlement of a yielded promise. *)
Definition deliver (p : promise) : option input :=
  match fate p with
  | Fulfilled v => Some (Next v)
  | _ => None
  end.

Inductive reachable : driver (RState R) -> Prop :=
| reachable_co : reachable co
| reachable_step d d' : reachable d -> step fire d d' -> reachable d'.

(** [next] as it is called: by the executor ([exec] true) or as the
    callback of a fulfilled promise. *)
Definition enter (exec : bool) (v : jsval) (d : driver (RState R))
  : driver (RState R) :=
  if exec then executor (next v d) else swallow (next v d).

(** [completes s i ws v]: resumed in state [s] with [i], the routine
    yields promises that fulfil with the values [ws], being resumed with
    each of them in turn, and then finishes with [v]. *)
Inductive completes : RState R -> jsval -> list jsval -> jsval -> Prop :=
| completes_return s i s' v :
    g_next R s i = (s', Returns (mkIter true v)) ->
    completes s i [] v
| completes_yield s i s1 p w ws v :
    g_next R s i = (s1, Returns (mkIter false (VPromise p))) ->
    fate p = Fulfilled w ->
    completes s1 w ws v ->
    completes s i (w :: ws) v.

End Co.
End CoSimple.

(** ** The [co] with error handling (co-error-solution.js) *)

Module CoError.
Section Co.
Variable R : Routine.

(** [function next(ret)]; [ret] is [None] when the variable was left
    [undefined]. *)
Definition next (ret : option IterResult) (d : driver (RState R))
  : driver (RState R) * option jsval :=
  match ret with
  | None => (d, Some (VTypeError ReadOfUndefined))
  | Some ret =>
      if done ret then (resolve (value ret) d, None)
      else then_ (value ret) d
  end.

(** [function onResolve(value)]:
    [let ret; try { ret = g.next(value); } catch (e) { reject(e) } next(ret);] *)
Definition onResolve (value : jsval) (d : driver (RState R))
  : driver (RState R) * option jsval :=
  let (s', c) := g_next R (gen d) value in
  let d1 := resumed (Next value) c s' d in
  let (ret, d2) :=
    match c with
    | Returns r => (Some r, d1)
    | Raises e => (None, reject e d1)
    end in
  next ret d2.

(** [function onReject(err)]:
    [let ret; try { ret = g.throw(err); } catch (e) { reject(e); } next(ret);] *)
Definition onReject (err : jsval) (d : driver (RState R))
  : driver (RState R) * option jsval :=
  let (s', c) := g_throw R (gen d) err in
  let d1 := resumed (ThrowIn err) c s' d in
  let (ret, d2) :=
    match c with
    | Returns r => (Some r, d1)
    | Raises e => (None, reject e d1)
    end in
  next ret d2.

(** The two callbacks, by the resumption they make. *)
Definition resume_then_next (i : input) (d : driver (RState R))
  : driver (RState R) * option jsval :=
  match i with
  | Next value => onResolve value d
  | ThrowIn err => onReject err d
  end.

(** [function co(generator)]: the executor instantiates the routine and
    calls [onResolve()]. *)
Definition co : driver (RState R) :=
  executor (onResolve VUndefined (mkDriver (g_init R) PPending [] [])).

(** [ret.value.then(onResolve, onReject)] *)
Definition fire (p : promise) (d : driver (RState R))
  : option (driver (RState R)) :=
  let d := log (ESettled p) d in
  match fate p with
  | Fulfilled v => Some (swallow (onResolve v d))
  | Rejected e => Some (swallow (onReject e d))
  | Unsettled => None
  end.

Definition deliver (p : promise) : option input :=
  match fate p with
  | Fulfilled v => Some (Next v)
  | Rejected e => Some (ThrowIn e)
  | Unsettled => None
  end.

Inductive reachable : driver (RState R) -> Prop :=
| reachable_co : reachable co
| reachable_step d d' : reachable d -> step fire d d' -> reachable d'.

(** A resumption as it is called: by the executor ([exec] true) or as a
    callback of a settled promise. *)
Definition enter (exec : bool) (i : input) (d : driver (RState R))
  : driver (RState R) :=
  if exec then executor (resume_then_next i d)
  else swallow (resume_then_next i d).

End Co.
End CoError.

(** ** solutions/generator-error-propagation-solution.js: [adder] *)

Module Adder.

(** The values the adder adds: [undefined] and the numbers, which are
    IEEE 754 doubles, [NaN] among them.  On these values [+] neither
    concatenates nor throws. *)
Inductive num : Type :=
| Undefined
| Num (f : float).

Definition NaN : num := Num nan.

(** [a + b] on these values: [undefined] converts to [NaN], and numbers
    are added as doubles. *)
Definition add (a b : num) : num :=
  match a, b with
  | Num x, Num y => Num (x + y)
  | _, _ => NaN
  end.

(** [new Error(msg)] *)
Inductive error : Type := Error (msg : string).

(** What a caller can pass as [err], and what [go] can throw: one of the
    values above or an [Error] object. *)
Inductive thrown : Type :=
| Val (v : num)
| Err (e : error).

(** [if (err)]: [undefined], [0], [-0] and [NaN] are falsy, the other
    numbers and every object are truthy. *)
Definition truthy (err : thrown) : bool :=
  match err with
  | Val Undefined => false
  | Val (Num f) => negb (PrimFloat.eqb f 0 || negb (PrimFloat.eqb f f))
  | Err _ => true
  end.

(** The two values the variable [state] takes; the [default] branch of
    the [switch] is never entered. *)
Inductive label : Type := initial | loop.

(** The variables closed over by [go]. *)
Record machine : Type := mkAdder {
  initialValue : num;
  state : label;
  done : bool;
  sum : num;
  lastSum : num;
  temp : num
}.

(** How a call of [go] ends: [return {done: done, value: result}] or an
    exception. *)
Inductive outcome : Type :=
| Return (done : bool) (value : num)
| Throw (e : thrown).

(** [function go(input, err)] *)
Definition go (input : num) (err : thrown) (a : machine)
  : machine * outcome :=
  match state a with
  | initial =>
      if truthy err then (a, Throw err)
      else
        let a1 := mkAdder (initialValue a) (state a) (done a)
                          (sum a) (lastSum a) (sum a) in
        let result := initialValue a1 in
        let a2 := mkAdder (initialValue a1) loop (done a1)
                          (sum a1) (lastSum a1) (temp a1) in
        (a2, Return (done a2) result)
  | loop =>
      let a1 :=
        if truthy err then
          (* throw err; ... catch (e) { sum = lastSum; } *)
          mkAdder (initialValue a) (state a) (done a)
                  (lastSum a) (lastSum a) (temp a)
        else
          (* sum += input; lastSum = temp; temp = sum; *)
          mkAdder (initialValue a) (state a) (done a)
                  (add (sum a) input) (temp a) (add (sum a) input) in
      let result := sum a1 in
      let a2 := mkAdder (initialValue a1) loop (done a1)
                        (sum a1) (lastSum a1) (temp a1) in
      (a2, Return (done a2) result)
  end.

(** [function adder(initialValue)] *)
Definition adder (initialValue : num) : machine :=
  mkAdder initialValue initial false initialValue Undefined Undefined.

(** The two methods of the returned object: [next: go] and
    [throw: function (err) { return go(undefined, err) }]. *)
Definition next (input : num) (err : thrown) (a : machine)
  : machine * outcome :=
  go input err a.

Definition throw (err : thrown) (a : machine) : machine * outcome :=
  go Undefined err a.

(** The calls a caller can make: [add.next(input)], where [err] is left
    [undefined], [add.throw(err)] and [add.next(input, err)]. *)
Inductive call : Type :=
| CallNext (input : num)
| CallThrow (err : thrown)
| CallNextWith (input : num) (err : thrown).

Definition invoke (c : call) (a : machine) : machine * outcome :=
  match c with
  | CallNext input => next input (Val Undefined) a
  | CallThrow err => throw err a
  | CallNextWith input err => next input err a
  end.

(** A caller making the calls [cs] in turn, and what each one gives. *)
Fixpoint play (cs : list call) (a : machine) : list outcome :=
  match cs with
  | [] => []
  | c :: cs' => snd (invoke c a) :: play cs' (fst (invoke c a))
  end.

Definition BOO : thrown := Err (Error "BOO)!").

(** The calls of [function runner()], on [adder(0)]. *)
Definition runner_calls : list call :=
  [CallNext Undefined; CallNext (Num 1); CallNext (Num 2);
   CallThrow BOO; CallNext (Num 4)].

Definition runner : list outcome := play runner_calls (adder (Num 0)).

(** The sum and the value it had before the most recent successful
    addition, as the calls made in the loop state determine them: an
    addition moves the pair on, a fault goes back. *)
Fixpoint sum_history (cs : list call) (cur prev : num) : num * num :=
  match cs with
  | [] => (cur, prev)
  | CallNext x :: cs' => sum_history cs' (add cur x) cur
  | CallThrow _ :: cs' => sum_history cs' prev prev
  | CallNextWith x _ :: cs' => sum_history cs' (add cur x) cur
  end.

End Adder.

(** README.md, [function* adder(initialValue)]: the generator that the
    hand-written [adder] stands for, as the states in which it can be
    found.  A generator's [next] takes one argument, and its [throw]
    raises at the [yield] whatever it is given. *)
Module AdderGenerator.
Import Adder.

Inductive generator : Type :=
| Start (initialValue : num)
| AtYield (sum lastSum temp : num)
| Closed.

(** [temp = sum; ... yield sum]: the top of the loop body up to the
    [yield]. *)
Definition to_yield (sum lastSum : num) : generator * outcome :=
  (AtYield sum lastSum sum, Return false sum).

Definition next (input : num) (g : generator) : generator * outcome :=
  match g with
  | Start initialValue => to_yield initialValue initialValue
  | AtYield sum lastSum temp => to_yield (add sum input) temp
  | Closed => (Closed, Return true Undefined)
  end.

Definition throw (err : thrown) (g : generator) : generator * outcome :=
  match g with
  | AtYield sum lastSum temp => to_yield lastSum lastSum
  | _ => (Closed, Throw err)
  end.

Definition invoke (c : call) (g : generator) : generator * outcome :=
  match c with
  | CallNext input => next input g
  | CallThrow err => throw err g
  | CallNextWith input _ => next input g
  end.

Fixpoint play (cs : list call) (g : generator) : list outcome :=
  match cs with
  | [] => []
  | c :: cs' => snd (invoke c g) :: play cs' (fst (invoke c g))
  end.

Fixpoint after (cs : list call) (g : generator) : generator :=
  match cs with
  | [] => g
  | c :: cs' => after cs' (fst (invoke c g))
  end.

End AdderGenerator.

(** ** Routines to drive *)

Module Routines.

(** A generator without [try]: the successive calls of [next] complete
    as listed, whatever they are given; [throw] closes it. *)
Definition scripted (cs : list completion) : Routine :=
  mkRoutine cs
    (fun s _ =>
       match s with
       | c :: s' => (s', c)
       | [] => ([], Returns (mkIter true VUndefined))
       end)
    (fun _ e => ([], Raises e)).

Definition yields (v : jsval) : completion := Returns (mkIter false v).
Definition returns (v : jsval) : completion := Returns (mkIter true v).

(** [function* asyncAdds()] of co-simple-solution.js; the state is the
    position in the body and what [console.log] has printed. *)
Definition asyncAdds : Routine :=
  mkRoutine (0%nat, @nil jsval)
    (fun s v =>
       let (pc, out) := s in
       match pc with
       | 0%nat => ((1%nat, out), yields (deferred (VNum 1)))
       | 1%nat => ((2%nat, out ++ [v]), yields (deferred (VNum 2)))
       | 2%nat => ((3%nat, out ++ [v]), yields (deferred (VNum 3)))
       | 3%nat => ((4%nat, out ++ [v]), returns VUndefined)
       | _ => ((4%nat, out), returns VUndefined)
       end)
    (fun s e => ((4%nat, snd s), Raises e)).

(** [function* asyncAdds()] of the [co] with error handling, as it is
    written: [deferredError] is not defined, so that evaluating the second
    [yield]'s operand raises inside the [try] and the [catch] prints. *)
Definition asyncAdds_recovering : Routine :=
  mkRoutine (0%nat, @nil jsval)
    (fun s v =>
       let (pc, out) := s in
       match pc with
       | 0%nat => ((1%nat, out), yields (deferred (VNum 1)))
       | 1%nat => ((2%nat, out ++ [v; VStr "We recovered!"]),
                   yields (deferred (VNum 3)))
       | 2%nat => ((3%nat, out ++ [v]), returns VUndefined)
       | _ => ((3%nat, out), returns VUndefined)
       end)
    (fun s e => ((3%nat, snd s), Raises e)).

Definition num_of (v : jsval) : Z :=
  match v with VNum n => n | _ => 0 end.

(** [function* () { const a = yield deferred(1); const b = yield deferred(2);
    const c = yield deferred(3); return a + b + c; }], for numbers. *)
Definition sumThree : Routine :=
  mkRoutine (0%nat, 0%Z)
    (fun s v =>
       let (pc, acc) := s in
       match pc with
       | 0%nat => ((1%nat, acc), yields (deferred (VNum 1)))
       | 1%nat => ((2%nat, acc + num_of v)%Z, yields (deferred (VNum 2)))
       | 2%nat => ((3%nat, acc + num_of v)%Z, yields (deferred (VNum 3)))
       | 3%nat => ((4%nat, acc), returns (VNum (acc + num_of v)))
       | _ => ((4%nat, acc), returns VUndefined)
       end)
    (fun s e => ((4%nat, snd s), Raises e)).

Definition toFail : jsval := VError "To fail, or to not fail.".

(** [asyncAdds] of co-error with a sum: the second promise is rejected
    inside a [try] whose [catch] carries on with 10. *)
Definition recovers : Routine :=
  mkRoutine (0%nat, 0%Z)
    (fun s v =>
       let (pc, acc) := s in
       match pc with
       | 0%nat => ((1%nat, acc), yields (deferred (VNum 1)))
       | 1%nat => ((2%nat, acc + num_of v)%Z, yields (deferReject toFail))
       | 2%nat => ((3%nat, acc + num_of v)%Z, yields (deferred (VNum 3)))
       | 3%nat => ((4%nat, acc), returns (VNum (acc + num_of v)))
       | _ => ((4%nat, acc), returns VUndefined)
       end)
    (fun s e =>
       let (pc, acc) := s in
       match pc with
       | 2%nat => ((3%nat, acc + 10)%Z, yields (deferred (VNum 3)))
       | _ => ((4%nat, acc), Raises e)
       end).

(** One rejected promise and no handler. *)
Definition unhandled : Routine := scripted [yields (deferReject toFail)].

(** A routine that fails by itself at its second resumption. *)
Definition raising : Routine :=
  scripted [yields (deferred (VNum 1)); Raises (VError "boom")].

(** A routine that fails by itself at its first resumption. *)
Definition failsAtOnce : Routine := scripted [Raises (VError "boom")].

(** A routine that is done at once. *)
Definition immediate : Routine := scripted [returns (VNum 42)].

(** Routines yielding a number where a promise is expected. *)
Definition plainFirst : Routine := scripted [yields (VNum 5)].
Definition plainSecond : Routine :=
  scripted [yields (deferred (VNum 1)); yields (VNum 5)].

(** A routine that waits for a promise nobody settles. *)
Definition waits : Routine := scripted [yields (VPromise PPending)].

(** A routine that finishes with a rejected promise. *)
Definition lateReject : Routine :=
  scripted [yields (deferred (VNum 1)); returns (deferReject (VError "late"))].

(** A routine that yields a promise resolved with a promise. *)
Definition nested : Routine :=
  scripted [yields (deferred (deferred (VNum 7)))].

End Routines.

(** ** Further readings of a history *)



(** A routine is never handed a promise by [g.next]. *)
Definition plain_input (i : input) : Prop :=
  match i with
  | Next v => is_promise v = false
  | ThrowIn _ => True
  end.

(** The sums a caller sees when adding [xs] one after the other to [n],
    as doubles. *)
Fixpoint running (n : float) (xs : list float) : list float :=
  match xs with
  | [] => []
  | x :: xs' => (n + x)%float :: running (n + x) xs'
  end.

(** * Properties *)

Unset Implicit Arguments.

(** ** The event loop and histories *)

Section LoopFacts.
Variable St : Type.
Variable fire : promise -> driver St -> option (driver St).

Lemma tick_idle (d : driver St) : subs d = [] -> tick fire d = d.
Proof. unfold tick. intros ->. reflexivity. Qed.

Lemma run_idle (n : nat) (d : driver St) : subs d = [] -> run fire n d = d.
Proof.
  intros H. induction n as [|n IH]; simpl.
  - reflexivity.
  - rewrite tick_idle by assumption. exact IH.
Qed.

Lemma run_add (n m : nat) (d : driver St) :
  run fire (n + m) d = run fire m (run fire n d).
Proof.
  revert d. induction n as [|n IH]; intros d; simpl.
  - reflexivity.
  - apply IH.
Qed.

Lemma step_needs_subscription (d d' : driver St) :
  step fire d d' -> subs d <> [].
Proof.
  intros [? ? pre p post E _] F. rewrite F in E.
  destruct pre; discriminate.
Qed.

Lemma steps_idle (d d' : driver St) :
  subs d = [] -> steps fire d d' -> d' = d.
Proof.
  intros H Hs. destruct Hs as [|d1 d2 d3 Hs _].
  - reflexivity.
  - apply step_needs_subscription in Hs. destruct (Hs H).
Qed.

End LoopFacts.

Lemma inputs_app (t u : list event) : inputs (t ++ u) = inputs t ++ inputs u.
Proof.
  induction t as [|e t IH]; simpl.
  - reflexivity.
  - destruct e; simpl; rewrite IH; reflexivity.
Qed.

Lemma settle_calls_app (t u : list event) :
  settle_calls (t ++ u) = settle_calls t ++ settle_calls u.
Proof.
  induction t as [|e t IH]; simpl.
  - reflexivity.
  - destruct e; simpl; rewrite IH; reflexivity.
Qed.

Lemma finals_app (t u : list event) : finals (t ++ u) = finals t ++ finals u.
Proof.
  induction t as [|e t IH]; simpl.
  - reflexivity.
  - destruct e as [i [ret|x]| | | | |]; simpl; rewrite IH; try reflexivity.
    destruct (done ret); reflexivity.
Qed.

Lemma fate_resolved_plain (v : jsval) :
  is_promise v = false -> fate (PResolved v) = Fulfilled v.
Proof. destruct v; simpl; intros H; reflexivity || discriminate. Qed.

Lemma phase_of_snoc (t : list event) (e : event) :
  phase_of (t ++ [e]) =
  match phase_of t with Some ph => advance ph e | None => None end.
Proof. unfold phase_of. rewrite fold_left_app. reflexivity. Qed.

Lemma advance_settled (p : promise) (i : input) :
  CoError.deliver p = Some i ->
  advance (Awaiting p) (ESettled p) = Some (Settled i).
Proof.
  unfold CoError.deliver. simpl.
  destruct (promise_eq_dec p p) as [_|F]; [|destruct (F eq_refl)].
  destruct (fate p); intros [= <-]; reflexivity.
Qed.

Lemma advance_first c : advance Ready (EResume (Next VUndefined) c) = Some Running.
Proof.
  simpl. destruct (input_eq_dec (Next VUndefined) (Next VUndefined)) as [_|F];
    [reflexivity | destruct (F eq_refl)].
Qed.

Lemma advance_resume i c : advance (Settled i) (EResume i c) = Some Running.
Proof.
  simpl. destruct (input_eq_dec i i) as [_|F];
    [reflexivity | destruct (F eq_refl)].
Qed.

Lemma phase_lost t :
  fold_left
    (fun o e => match o with Some ph => advance ph e | None => None end)
    t None = None.
Proof. induction t as [|e t IH]; [reflexivity | exact IH]. Qed.

(** A history that obeys the discipline shows only promises that have
    settled as settled. *)
Lemma sequential_from_settled t o p :
  fold_left
    (fun o e => match o with Some ph => advance ph e | None => None end)
    t o <> None ->
  In (ESettled p) t -> fate p <> Unsettled.
Proof.
  revert o. induction t as [|e t IH]; intros o H Hin.
  - destruct Hin.
  - simpl in H. destruct Hin as [->|Hin]; [|exact (IH _ H Hin)].
    intros Hf. apply H.
    destruct o as [ph|]; [|apply phase_lost].
    destruct ph as [| |q|j]; simpl; try apply phase_lost.
    destruct (promise_eq_dec p q); [|apply phase_lost].
    rewrite Hf. apply phase_lost.
Qed.

Lemma sequential_settled t p :
  sequential t -> In (ESettled p) t -> fate p <> Unsettled.
Proof. unfold sequential, phase_of. apply sequential_from_settled. Qed.

(** ** The simple driver *)

Section SimpleFacts.
Variable R : Routine.

Lemma simple_co_enter :
  CoSimple.co R = CoSimple.enter R true VUndefined (mkDriver (g_init R) PPending [] []).
Proof. reflexivity. Qed.

Lemma simple_enter_yield exec v (d : driver (RState R)) s1 p :
  g_next R (gen d) v = (s1, Returns (mkIter false (VPromise p))) ->
  CoSimple.enter R exec v d =
  mkDriver s1 (result d) (subs d ++ [p])
    ((trace d ++ [EResume (Next v) (Returns (mkIter false (VPromise p)))])
       ++ [EAwait p]).
Proof.
  intros H. unfold CoSimple.enter, CoSimple.next. rewrite H.
  destruct exec; reflexivity.
Qed.

Lemma simple_tick_yield exec v (d : driver (RState R)) s1 p w :
  g_next R (gen d) v = (s1, Returns (mkIter false (VPromise p))) ->
  subs d = [] ->
  fate p = Fulfilled w ->
  tick (CoSimple.fire R) (CoSimple.enter R exec v d) =
  CoSimple.enter R false w
    (mkDriver s1 (result d) []
       (((trace d ++ [EResume (Next v) (Returns (mkIter false (VPromise p)))])
           ++ [EAwait p]) ++ [ESettled p])).
Proof.
  intros H Hs Hf. rewrite (simple_enter_yield exec _ _ _ _ H).
  unfold tick. rewrite Hs. simpl. unfold CoSimple.fire. rewrite Hf.
  reflexivity.
Qed.

Lemma simple_enter_return exec v (d : driver (RState R)) s' x :
  g_next R (gen d) v = (s', Returns (mkIter true x)) ->
  result d = PPending ->
  CoSimple.enter R exec v d =
  mkDriver s' (PResolved x) (subs d)
    ((trace d ++ [EResume (Next v) (Returns (mkIter true x))]) ++ [EResolve x]).
Proof.
  intros H Hp. unfold CoSimple.enter, CoSimple.next. rewrite H.
  unfold resolve. simpl. rewrite Hp. destruct exec; reflexivity.
Qed.

(** A completing routine, entered in any idle driver. *)
Lemma simple_completes_run s i ws v :
  CoSimple.completes R s i ws v ->
  forall exec (d : driver (RState R)),
    gen d = s -> subs d = [] -> result d = PPending ->
    let d' := run (CoSimple.fire R) (length ws) (CoSimple.enter R exec i d) in
    result d' = PResolved v /\ subs d' = [] /\
    resumptions d' = resumptions d ++ map Next (i :: ws).
Proof.
  induction 1 as [s i s' v H | s i s1 p w ws v H Hf _ IH];
    intros exec d Hg Hs Hp; subst s.
  - simpl. rewrite (simple_enter_return exec _ _ _ _ H Hp). simpl.
    repeat split; try assumption.
    unfold resumptions. simpl. rewrite !inputs_app. simpl.
    rewrite app_nil_r. reflexivity.
  - cbn [length run]. rewrite (simple_tick_yield exec _ _ _ _ _ H Hs Hf).
    match goal with
    | |- context [CoSimple.enter R false w ?D] =>
        destruct (IH false D eq_refl eq_refl Hp) as (Hr & Hs' & Hi)
    end.
    repeat split; try assumption.
    rewrite Hi. unfold resumptions. simpl. rewrite !inputs_app. simpl.
    rewrite !app_nil_r, <- app_assoc. reflexivity.
Qed.

(** C1: a routine that yields N promises, each of which fulfils, and
    then finishes is resumed exactly N+1 times by the simple driver: first
    with no input, then with the value of each promise in turn; after the
    N settlements the Driver Result is resolved with the routine's final
    value, and nothing happens afterwards. *)
Theorem simple_co_resumes_with_each_value (ws : list jsval) (v : jsval) :
  CoSimple.completes R (g_init R) VUndefined ws v ->
  let d := run (CoSimple.fire R) (length ws) (CoSimple.co R) in
  result d = PResolved v /\
  (is_promise v = false -> fate (result d) = Fulfilled v) /\
  resumptions d = Next VUndefined :: map Next ws /\
  length (resumptions d) = length ws + 1 /\
  (forall n, run (CoSimple.fire R) n d = d).
Proof.
  intros H. rewrite simple_co_enter.
  destruct (simple_completes_run _ _ _ _ H true
              (mkDriver (g_init R) PPending [] []) eq_refl eq_refl eq_refl)
    as (Hr & Hs & Hi).
  cbv zeta. repeat split.
  - exact Hr.
  - rewrite Hr. apply fate_resolved_plain.
  - exact Hi.
  - rewrite Hi. simpl. rewrite length_map. lia.
  - intros n. apply run_idle. exact Hs.
Qed.

(** C7: when the first resumption of the routine, made with no input,
    finishes, the simple driver resolves the Driver Result with the
    routine's final value; that resumption is the only one ever made. *)
Theorem simple_co_finishes_at_once (s' : RState R) (v : jsval) :
  g_next R (g_init R) VUndefined = (s', Returns (mkIter true v)) ->
  let d := CoSimple.co R in
  result d = PResolved v /\
  (is_promise v = false -> fate (result d) = Fulfilled v) /\
  resumptions d = [Next VUndefined] /\
  subs d = [] /\
  (forall n, resumptions (run (CoSimple.fire R) n d) = [Next VUndefined]) /\
  (forall d', steps (CoSimple.fire R) d d' -> d' = d).
Proof.
  intros H. cbv zeta. rewrite simple_co_enter.
  rewrite (simple_enter_return true VUndefined
             (mkDriver (g_init R) PPending [] []) _ _ H eq_refl). simpl.
  repeat split.
  - apply fate_resolved_plain.
  - intros n. rewrite run_idle; reflexivity.
  - intros d' Hs. apply (steps_idle _ (CoSimple.fire R) _ _); [|exact Hs]. reflexivity.
Qed.

Lemma simple_enter_raise exec v (d : driver (RState R)) s' e :
  g_next R (gen d) v = (s', Raises e) ->
  CoSimple.enter R exec v d =
  (if exec then reject e else log (EUncaught e))
    (mkDriver s' (result d) (subs d) (trace d ++ [EResume (Next v) (Raises e)])).
Proof.
  intros H. unfold CoSimple.enter, CoSimple.next. rewrite H.
  destruct exec; reflexivity.
Qed.

Lemma simple_enter_plain exec v (d : driver (RState R)) s' x :
  g_next R (gen d) v = (s', Returns (mkIter false x)) ->
  is_promise x = false ->
  exists k,
    CoSimple.enter R exec v d =
    (if exec then reject (VTypeError k) else log (EUncaught (VTypeError k)))
      (mkDriver s' (result d) (subs d)
         (trace d ++ [EResume (Next v) (Returns (mkIter false x))])).
Proof.
  intros H Hx. unfold CoSimple.enter, CoSimple.next. rewrite H.
  destruct x; try discriminate; simpl;
    (exists ReadOfUndefined; destruct exec; reflexivity) ||
    (exists NotAFunction; destruct exec; reflexivity).
Qed.

(** Following a run of fulfilled promises from an idle driver. *)
Lemma simple_reaches_run s i l s' i' :
  reaches R CoSimple.deliver s i l s' i' ->
  forall v exec (d : driver (RState R)),
    i = Next v -> gen d = s -> subs d = [] ->
    exists v' exec' d',
      i' = Next v' /\ gen d' = s' /\ subs d' = [] /\ result d' = result d /\
      resumptions d' ++ [i'] = resumptions d ++ i :: l /\
      run (CoSimple.fire R) (length l) (CoSimple.enter R exec v d) =
        CoSimple.enter R exec' v' d' /\
      (l = [] -> exec' = exec) /\ (l <> [] -> exec' = false).
Proof.
  induction 1 as [s i | s i s1 p j l s' i' H Hd _ IH];
    intros v exec d Hi Hg Hs; subst.
  - exists v, exec, d. repeat split; try reflexivity; try assumption.
    intros F. destruct (F eq_refl).
  - unfold CoSimple.deliver in Hd.
    destruct (fate p) as [w| |] eqn:Hf; try discriminate.
    injection Hd as <-. simpl in H.
    cbn [length run]. rewrite (simple_tick_yield exec _ _ _ _ _ H Hs Hf).
    match goal with
    | |- context [CoSimple.enter R false w ?D] =>
        destruct (IH w false D eq_refl eq_refl eq_refl)
          as (v' & exec' & d' & Hi' & Hg' & Hs' & Hr' & Hin & Hrun & He1 & He2)
    end.
    exists v', exec', d'. repeat split; try assumption.
    + rewrite Hin. unfold resumptions. simpl. rewrite !inputs_app. simpl.
      rewrite !app_nil_r, <- app_assoc. reflexivity.
    + discriminate.
    + intros _. destruct l; [apply He1; reflexivity | apply He2; discriminate].
Qed.

(** C5: the simple driver does not look at what the routine yields.
    When a resumption of the routine yields, not finished, something that
    is not a promise, the call of its [then] raises a [TypeError] and the
    routine is never resumed again.  At the first resumption the
    [TypeError] leaves the executor and rejects the Driver Result.  At a
    later resumption the [TypeError] leaves a settlement callback, where
    nobody sees it: no [resolve] or [reject] follows, and the Driver
    Result is pending at every later turn of the event loop, where the
    document of the exercise has [co] pass the routine's mistake back. *)
Theorem simple_co_non_promise_yield (l : list input) (s s' : RState R) (w x : jsval) :
  reaches R CoSimple.deliver (g_init R) (Next VUndefined) l s (Next w) ->
  g_next R s w = (s', Returns (mkIter false x)) ->
  is_promise x = false ->
  let d := run (CoSimple.fire R) (length l) (CoSimple.co R) in
  resumptions d = Next VUndefined :: l /\
  subs d = [] /\
  (forall n, run (CoSimple.fire R) n d = d) /\
  exists k,
    (l = [] ->
       result d = PRejected (VTypeError k) /\
       exists t, trace d = t ++ [EReject (VTypeError k)]) /\
    (l <> [] ->
       (forall n, result (run (CoSimple.fire R) n d) = PPending) /\
       exists t, trace d = t ++ [EUncaught (VTypeError k)]).
Proof.
  intros Hr H Hx. cbv zeta. rewrite simple_co_enter.
  destruct (simple_reaches_run _ _ _ _ _ Hr VUndefined true
              (mkDriver (g_init R) PPending [] []) eq_refl eq_refl eq_refl)
    as (v' & exec' & d' & Hi' & Hg' & Hs' & Hr' & Hin & Hrun & He1 & He2).
  injection Hi' as <-. rewrite Hrun. subst s.
  destruct (simple_enter_plain exec' _ _ _ _ H Hx) as (k & ->).
  simpl in Hr'. unfold resumptions in Hin. simpl in Hin.
  assert (Hin' : inputs (trace d' ++ [EResume (Next w) (Returns (mkIter false x))])
                 = Next VUndefined :: l).
  { rewrite inputs_app. exact Hin. }
  destruct exec'; unfold reject, log, resumptions; simpl; rewrite Hr'; simpl;
    rewrite inputs_app, Hin', app_nil_r;
    (split; [reflexivity|]); (split; [exact Hs'|]);
    (split; [intros n; apply run_idle; exact Hs'|]); exists k; split.
  - intros _. split; [reflexivity | eexists; reflexivity].
  - intros Hl. discriminate (He2 Hl).
  - intros Hl. discriminate (He1 Hl).
  - intros _. split; [|eexists; reflexivity].
    intros n. rewrite run_idle; [reflexivity | exact Hs'].
Qed.

Lemma simple_enter_orderly exec v (d : driver (RState R)) ph :
  phase_of (trace d) = Some ph ->
  (forall c, advance ph (EResume (Next v) c) = Some Running) ->
  subs d = [] ->
  orderly (CoSimple.enter R exec v d).
Proof.
  intros Hph Hadv Hs. unfold CoSimple.enter, CoSimple.next.
  destruct (g_next R (gen d) v) as [s' [[[|] x]|e]].
  - exists Running.
    destruct exec; unfold executor, swallow, resolve, log; simpl;
      destruct (is_pending (result d)); simpl;
      rewrite !phase_of_snoc, Hph; cbv beta iota; rewrite Hadv; simpl; auto.
  - destruct x; unfold orderly;
      destruct exec; unfold executor, swallow, reject, log; simpl;
      try destruct (is_pending (result d)); simpl;
      rewrite !phase_of_snoc, Hph, ?Hs; cbv beta iota; rewrite Hadv;
      simpl; eauto.
  - exists Running.
    destruct exec; unfold executor, swallow, reject, log; simpl;
      try destruct (is_pending (result d)); simpl;
      rewrite !phase_of_snoc, Hph; cbv beta iota; rewrite Hadv; simpl; auto.
Qed.

Lemma outstanding_single ph pre (p : promise) post :
  pre ++ p :: post = outstanding ph ->
  ph = Awaiting p /\ pre = [] /\ post = [].
Proof.
  destruct ph as [| |q|j]; simpl; intros H.
  - destruct pre; discriminate.
  - destruct pre; discriminate.
  - destruct pre as [|a [|b pre]]; simpl in H.
    + injection H as -> <-. auto.
    + discriminate.
    + discriminate.
  - destruct pre; discriminate.
Qed.

Lemma simple_reachable_orderly (d : driver (RState R)) :
  CoSimple.reachable R d -> orderly d.
Proof.
  induction 1 as [|d d' _ IH Hstep].
  - rewrite simple_co_enter.
    apply (simple_enter_orderly true VUndefined _ Ready);
      [reflexivity | apply advance_first | reflexivity].
  - destruct IH as (ph & Hph & Hsub).
    destruct Hstep as [d d' pre p post E Hf].
    rewrite Hsub in E. symmetry in E.
    apply outstanding_single in E. destruct E as (-> & -> & ->).
    unfold CoSimple.fire in Hf. simpl in Hf.
    destruct (fate p) as [w|e|] eqn:Hfate; try discriminate; injection Hf as <-.
    + apply (simple_enter_orderly false w
               (log (ESettled p) (set_subs [] d)) (Settled (Next w))).
      * unfold log. simpl. rewrite phase_of_snoc, Hph.
        apply advance_settled. unfold CoError.deliver. rewrite Hfate.
        reflexivity.
      * apply advance_resume.
      * reflexivity.
    + exists (Settled (ThrowIn e)). unfold log. simpl.
      rewrite !phase_of_snoc, Hph. cbv beta iota.
      rewrite (advance_settled p (ThrowIn e)).
      * auto.
      * unfold CoError.deliver. rewrite Hfate. reflexivity.
Qed.

Lemma simple_enter_resumptions exec v (d : driver (RState R)) :
  resumptions (CoSimple.enter R exec v d) = resumptions d ++ [Next v].
Proof.
  unfold CoSimple.enter, CoSimple.next.
  destruct (g_next R (gen d) v) as [s' [[[|] x]|e]].
  - destruct exec; unfold executor, swallow, resolve, log, resumptions; simpl;
      destruct (is_pending (result d)); simpl;
      rewrite !inputs_app; simpl; rewrite !app_nil_r; auto.
  - destruct x; destruct exec;
      unfold executor, swallow, reject, log, resumptions; simpl;
      try destruct (is_pending (result d)); simpl;
      rewrite !inputs_app; simpl; rewrite ?app_nil_r; auto.
  - destruct exec; unfold executor, swallow, reject, log, resumptions; simpl;
      try destruct (is_pending (result d)); simpl;
      rewrite !inputs_app; simpl; rewrite ?app_nil_r; auto.
Qed.

(** C6: in every state the simple driver can reach, at most one yielded
    promise has a callback outstanding, and resumptions form a strictly
    sequential chain: the history resumes the routine only at the start
    or right after the promise yielded by the previous resumption has
    settled, with what it settled with; a promise shown as settled has
    settled; and a turn of the event loop fires the one outstanding
    promise, which has settled, and resumes the routine at most once. *)
Theorem simple_co_one_at_a_time (d : driver (RState R)) :
  CoSimple.reachable R d ->
  (length (subs d) <= 1)%nat /\
  sequential (trace d) /\
  (exists ph, phase_of (trace d) = Some ph /\ subs d = outstanding ph) /\
  (forall p, In (ESettled p) (trace d) -> fate p <> Unsettled) /\
  (forall d', step (CoSimple.fire R) d d' ->
     exists p, subs d = [p] /\
       ((exists v, fate p = Fulfilled v /\
                   resumptions d' = resumptions d ++ [Next v]) \/
        (exists e, fate p = Rejected e /\
                   resumptions d' = resumptions d))).
Proof.
  intros H. destruct (simple_reachable_orderly d H) as (ph & Hph & Hsub).
  assert (Hseq : sequential (trace d)).
  { unfold sequential. rewrite Hph. discriminate. }
  split; [|split; [|split; [|split]]].
  - rewrite Hsub. destruct ph; simpl; lia.
  - exact Hseq.
  - exists ph. auto.
  - intros p. apply sequential_settled. exact Hseq.
  - intros d' Hstep. destruct Hstep as [d d' pre p post E Hf].
    rewrite Hsub in E. symmetry in E.
    apply outstanding_single in E. destruct E as (-> & -> & ->).
    exists p. split; [exact Hsub|].
    unfold CoSimple.fire in Hf. simpl in Hf.
    destruct (fate p) as [w|e|]; try discriminate; injection Hf as <-.
    + left. exists w. split; [reflexivity|].
      change (swallow (CoSimple.next R w (log (ESettled p) (set_subs [] d))))
        with (CoSimple.enter R false w (log (ESettled p) (set_subs [] d))).
      rewrite simple_enter_resumptions. unfold resumptions, log. simpl.
      rewrite inputs_app. simpl. rewrite app_nil_r. reflexivity.
    + right. exists e. split; [reflexivity|].
      unfold resumptions, log. simpl. rewrite !inputs_app. simpl.
      rewrite !app_nil_r. reflexivity.
Qed.

End SimpleFacts.

(** ** The driver with error handling *)

Section ErrorFacts.
Variable R : Routine.

Lemma error_resume_then_next_eq i (d : driver (RState R)) :
  CoError.resume_then_next R i d =
  let (s', c) := resume R (gen d) i in
  let d1 := resumed i c s' d in
  let (ret, d2) :=
    match c with
    | Returns r => (Some r, d1)
    | Raises e => (None, reject e d1)
    end in
  CoError.next R ret d2.
Proof. destruct i; reflexivity. Qed.

Lemma error_co_enter :
  CoError.co R =
  CoError.enter R true (Next VUndefined) (mkDriver (g_init R) PPending [] []).
Proof. reflexivity. Qed.

Lemma error_enter_yield exec i (d : driver (RState R)) s1 p :
  resume R (gen d) i = (s1, Returns (mkIter false (VPromise p))) ->
  CoError.enter R exec i d =
  mkDriver s1 (result d) (subs d ++ [p])
    ((trace d ++ [EResume i (Returns (mkIter false (VPromise p)))])
       ++ [EAwait p]).
Proof.
  intros H. unfold CoError.enter. rewrite !error_resume_then_next_eq. rewrite H.
  destruct exec; reflexivity.
Qed.

Lemma error_tick_yield exec i (d : driver (RState R)) s1 p j :
  resume R (gen d) i = (s1, Returns (mkIter false (VPromise p))) ->
  subs d = [] ->
  CoError.deliver p = Some j ->
  tick (CoError.fire R) (CoError.enter R exec i d) =
  CoError.enter R false j
    (mkDriver s1 (result d) []
       (((trace d ++ [EResume i (Returns (mkIter false (VPromise p)))])
           ++ [EAwait p]) ++ [ESettled p])).
Proof.
  intros H Hs Hd. rewrite (error_enter_yield exec _ _ _ _ H).
  unfold tick. rewrite Hs. simpl. unfold CoError.fire.
  unfold CoError.deliver in Hd.
  destruct (fate p); try discriminate; injection Hd as <-; reflexivity.
Qed.

Lemma error_enter_return exec i (d : driver (RState R)) s' x :
  resume R (gen d) i = (s', Returns (mkIter true x)) ->
  result d = PPending ->
  CoError.enter R exec i d =
  mkDriver s' (PResolved x) (subs d)
    ((trace d ++ [EResume i (Returns (mkIter true x))]) ++ [EResolve x]).
Proof.
  intros H Hp. unfold CoError.enter. rewrite !error_resume_then_next_eq. rewrite H.
  unfold CoError.next, resolve. simpl. rewrite Hp. destruct exec; reflexivity.
Qed.

Lemma error_enter_raise exec i (d : driver (RState R)) s' e :
  resume R (gen d) i = (s', Raises e) ->
  result d = PPending ->
  CoError.enter R exec i d =
  mkDriver s' (PRejected e) (subs d)
    (((trace d ++ [EResume i (Raises e)]) ++ [EReject e])
       ++ [if exec then EReject (VTypeError ReadOfUndefined)
           else EUncaught (VTypeError ReadOfUndefined)]).
Proof.
  intros H Hp. unfold CoError.enter. rewrite !error_resume_then_next_eq. rewrite H.
  unfold CoError.next, reject. simpl. rewrite Hp. destruct exec; reflexivity.
Qed.

(** Following a run of settled promises from an idle driver. *)
Lemma error_reaches_run s i l s' i' :
  reaches R CoError.deliver s i l s' i' ->
  forall exec (d : driver (RState R)),
    gen d = s -> subs d = [] ->
    exists exec' d',
      gen d' = s' /\ subs d' = [] /\ result d' = result d /\
      resumptions d' ++ [i'] = resumptions d ++ i :: l /\
      run (CoError.fire R) (length l) (CoError.enter R exec i d) =
        CoError.enter R exec' i' d'.
Proof.
  induction 1 as [s i | s i s1 p j l s' i' H Hd _ IH];
    intros exec d Hg Hs; subst.
  - exists exec, d. repeat split; try reflexivity; assumption.
  - cbn [length run]. rewrite (error_tick_yield exec _ _ _ _ _ H Hs Hd).
    match goal with
    | |- context [CoError.enter R false j ?D] =>
        destruct (IH false D eq_refl eq_refl)
          as (exec' & d' & Hg' & Hs' & Hr' & Hin & Hrun)
    end.
    exists exec', d'. repeat split; try assumption.
    rewrite Hin. unfold resumptions. simpl. rewrite !inputs_app. simpl.
    rewrite !app_nil_r, <- app_assoc. reflexivity.
Qed.

(** Until the last promise of the run has settled, the Driver Result is
    what it was. *)
Lemma error_reaches_pending s i l s' i' :
  reaches R CoError.deliver s i l s' i' ->
  forall exec (d : driver (RState R)) n,
    gen d = s -> subs d = [] -> (n < length l)%nat ->
    result (run (CoError.fire R) n (CoError.enter R exec i d)) = result d.
Proof.
  induction 1 as [s i | s i s1 p j l s' i' H Hd _ IH];
    intros exec d n Hg Hs Hn; subst.
  - simpl in Hn. lia.
  - destruct n as [|n].
    + simpl. rewrite (error_enter_yield exec _ _ _ _ H). reflexivity.
    + cbn [run]. rewrite (error_tick_yield exec _ _ _ _ _ H Hs Hd).
      match goal with
      | |- context [CoError.enter R false j ?D] =>
          rewrite (IH false D n eq_refl eq_refl)
      end.
      * reflexivity.
      * simpl in Hn. lia.
Qed.

Lemma reaches_last deliver s i l s' i' :
  reaches R deliver s i l s' i' -> exists l0, i :: l = l0 ++ [i'].
Proof.
  induction 1 as [s i | s i s1 p j l s' i' _ _ _ (l0 & IH)].
  - exists []. reflexivity.
  - exists (i :: l0). simpl. rewrite IH. reflexivity.
Qed.

(** C2: when the promises yielded by the routine settle, some of them
    with a fault [f] which the routine catches (its [throw] returns), and
    the routine then finishes, the driver has delivered every settlement
    in turn, [f] through [throw]; the Driver Result is resolved with the
    routine's final value and is at no time rejected. *)
Theorem error_co_recovers_from_caught_fault
  (l : list input) (s s' : RState R) (i : input) (v f : jsval) :
  reaches R CoError.deliver (g_init R) (Next VUndefined) l s i ->
  resume R s i = (s', Returns (mkIter true v)) ->
  In (ThrowIn f) l ->
  let d := run (CoError.fire R) (length l) (CoError.co R) in
  result d = PResolved v /\
  (is_promise v = false -> fate (result d) = Fulfilled v) /\
  resumptions d = Next VUndefined :: l /\
  In (ThrowIn f) (resumptions d) /\
  (forall n, run (CoError.fire R) n d = d) /\
  (forall n e, result (run (CoError.fire R) n (CoError.co R)) <> PRejected e).
Proof.
  intros Hr H Hf. cbv zeta. rewrite error_co_enter.
  destruct (error_reaches_run _ _ _ _ _ Hr true
              (mkDriver (g_init R) PPending [] []) eq_refl eq_refl)
    as (exec' & d' & Hg' & Hs' & Hr' & Hin & Hrun).
  simpl in Hr'. subst s.
  rewrite (error_enter_return exec' _ _ _ _ H Hr') in Hrun.
  assert (Hres : resumptions (run (CoError.fire R) (length l)
             (CoError.enter R true (Next VUndefined)
                (mkDriver (g_init R) PPending [] []))) = Next VUndefined :: l).
  { rewrite Hrun. unfold resumptions in *. simpl. rewrite !inputs_app. simpl.
    rewrite app_nil_r. exact Hin. }
  assert (Hidle : forall n, run (CoError.fire R) n
             (run (CoError.fire R) (length l)
                (CoError.enter R true (Next VUndefined)
                   (mkDriver (g_init R) PPending [] []))) =
             run (CoError.fire R) (length l)
                (CoError.enter R true (Next VUndefined)
                   (mkDriver (g_init R) PPending [] []))).
  { intros n. apply run_idle. rewrite Hrun. exact Hs'. }
  repeat split.
  - rewrite Hrun. reflexivity.
  - rewrite Hrun. apply fate_resolved_plain.
  - exact Hres.
  - rewrite Hres. right. exact Hf.
  - exact Hidle.
  - intros n e. destruct (Nat.lt_ge_cases n (length l)) as [Hn|Hn].
    + rewrite (error_reaches_pending _ _ _ _ _ Hr true
                 (mkDriver (g_init R) PPending [] []) n eq_refl eq_refl Hn).
      discriminate.
    + replace n with (length l + (n - length l))%nat by lia.
      rewrite run_add, Hidle, Hrun. discriminate.
Qed.

(** C3: when a yielded promise settles with a fault [f] and injecting [f]
    with [throw] raises [f], the Driver Result is rejected with [f]; the
    injection is the last resumption of the routine. *)
Theorem error_co_unhandled_fault
  (l : list input) (s s' : RState R) (f : jsval) :
  reaches R CoError.deliver (g_init R) (Next VUndefined) l s (ThrowIn f) ->
  g_throw R s f = (s', Raises f) ->
  let d := run (CoError.fire R) (length l) (CoError.co R) in
  result d = PRejected f /\
  resumptions d = Next VUndefined :: l /\
  (exists l0, resumptions d = l0 ++ [ThrowIn f]) /\
  subs d = [] /\
  (forall n, run (CoError.fire R) n d = d).
Proof.
  intros Hr H. cbv zeta. rewrite error_co_enter.
  destruct (error_reaches_run _ _ _ _ _ Hr true
              (mkDriver (g_init R) PPending [] []) eq_refl eq_refl)
    as (exec' & d' & Hg' & Hs' & Hr' & Hin & Hrun).
  simpl in Hr'. subst s.
  rewrite (error_enter_raise exec' (ThrowIn f) _ _ _ H Hr') in Hrun.
  rewrite Hrun.
  match goal with
  | |- result ?D = _ /\ _ =>
      assert (Hres : resumptions D = Next VUndefined :: l)
  end.
  { unfold resumptions in *. simpl in *. rewrite !inputs_app. simpl.
    destruct exec'; simpl; rewrite !app_nil_r; exact Hin. }
  repeat split.
  - exact Hres.
  - rewrite Hres. apply (reaches_last _ _ _ _ _ _ Hr).
  - exact Hs'.
  - intros n. apply run_idle. exact Hs'.
Qed.

(** C4: when a resumption with a value raises, be it the first or one
    that follows a fulfilled promise, the Driver Result is rejected with
    what was raised, and that resumption is the last. *)
Theorem error_co_routine_raises
  (l : list input) (s s' : RState R) (v e : jsval) :
  reaches R CoError.deliver (g_init R) (Next VUndefined) l s (Next v) ->
  g_next R s v = (s', Raises e) ->
  let d := run (CoError.fire R) (length l) (CoError.co R) in
  result d = PRejected e /\
  resumptions d = Next VUndefined :: l /\
  (exists l0, resumptions d = l0 ++ [Next v]) /\
  subs d = [] /\
  (forall n, run (CoError.fire R) n d = d).
Proof.
  intros Hr H. cbv zeta. rewrite error_co_enter.
  destruct (error_reaches_run _ _ _ _ _ Hr true
              (mkDriver (g_init R) PPending [] []) eq_refl eq_refl)
    as (exec' & d' & Hg' & Hs' & Hr' & Hin & Hrun).
  simpl in Hr'. subst s.
  rewrite (error_enter_raise exec' (Next v) _ _ _ H Hr') in Hrun.
  rewrite Hrun.
  match goal with
  | |- result ?D = _ /\ _ =>
      assert (Hres : resumptions D = Next VUndefined :: l)
  end.
  { unfold resumptions in *. simpl in *. rewrite !inputs_app. simpl.
    destruct exec'; simpl; rewrite !app_nil_r; exact Hin. }
  repeat split.
  - exact Hres.
  - rewrite Hres. apply (reaches_last _ _ _ _ _ _ Hr).
  - exact Hs'.
  - intros n. apply run_idle. exact Hs'.
Qed.

(** C10: when [g.next] or [g.throw] raises, the callback rejects the
    Driver Result in its [catch] block and then still calls [next(ret)]
    with [ret] undefined, which raises a [TypeError] on reading
    [ret.done]; by then the Driver Result is no longer pending. *)
Theorem error_callback_goes_on_after_raise
  (d : driver (RState R)) (i : input) (s' : RState R) (e : jsval) :
  resume R (gen d) i = (s', Raises e) ->
  let callback :=
    match i with
    | Next value => CoError.onResolve R value d
    | ThrowIn err => CoError.onReject R err d
    end in
  let rejected := reject e (resumed i (Raises e) s' d) in
  callback = CoError.next R None rejected /\
  callback = (rejected, Some (VTypeError ReadOfUndefined)) /\
  is_pending (result rejected) = false /\
  (result d = PPending -> result rejected = PRejected e).
Proof.
  intros H. cbv zeta.
  assert (Hc : match i with
               | Next value => CoError.onResolve R value d
               | ThrowIn err => CoError.onReject R err d
               end = CoError.resume_then_next R i d).
  { destruct i; reflexivity. }
  rewrite Hc. rewrite !error_resume_then_next_eq. rewrite H.
  repeat split.
  - unfold reject, log, resumed. simpl.
    destruct (result d) eqn:E; simpl; rewrite ?E; reflexivity.
  - intros Hp. unfold reject. simpl. rewrite Hp. reflexivity.
Qed.

End ErrorFacts.

(** ** Single assignment of the Driver Result *)

Section SettleFacts.
Variable St : Type.

Lemma settle_calls_settled t p :
  In p (settle_calls t) -> is_pending p = false.
Proof.
  induction t as [|e t IH]; simpl.
  - intros [].
  - destruct e; simpl; auto; intros [<-|H]; auto.
Qed.

Lemma first_call_pending (d : driver St) :
  first_call_wins d -> is_pending (result d) = true ->
  settle_calls (trace d) = [].
Proof.
  unfold first_call_wins. intros H Hp.
  destruct (settle_calls (trace d)) as [|p l] eqn:E.
  - reflexivity.
  - simpl in H. rewrite H in Hp.
    rewrite (settle_calls_settled (trace d) p) in Hp; [discriminate|].
    rewrite E. left. reflexivity.
Qed.

Lemma first_call_settled (d : driver St) l :
  first_call_wins d -> is_pending (result d) = false ->
  hd PPending (settle_calls (trace d) ++ l) = result d.
Proof.
  unfold first_call_wins. intros H Hp.
  destruct (settle_calls (trace d)) as [|p l'] eqn:E.
  - simpl in H. rewrite H in Hp. discriminate.
  - simpl. symmetry. exact H.
Qed.

Lemma first_call_quiet (d d' : driver St) :
  result d' = result d ->
  settle_calls (trace d') = settle_calls (trace d) ->
  first_call_wins d -> first_call_wins d'.
Proof. unfold first_call_wins. intros -> ->. auto. Qed.

Lemma first_call_resolve v (d : driver St) :
  first_call_wins d -> first_call_wins (resolve v d).
Proof.
  intros H. unfold resolve, log. simpl.
  destruct (is_pending (result d)) eqn:Hp; unfold first_call_wins; simpl;
    rewrite settle_calls_app; simpl.
  - rewrite (first_call_pending d H Hp). reflexivity.
  - symmetry. apply first_call_settled; assumption.
Qed.

Lemma first_call_reject e (d : driver St) :
  first_call_wins d -> first_call_wins (reject e d).
Proof.
  intros H. unfold reject, log. simpl.
  destruct (is_pending (result d)) eqn:Hp; unfold first_call_wins; simpl;
    rewrite settle_calls_app; simpl.
  - rewrite (first_call_pending d H Hp). reflexivity.
  - symmetry. apply first_call_settled; assumption.
Qed.

Lemma nothing_partial_grows (d d' : driver St) :
  result d' = result d ->
  (forall v, In v (finals (trace d)) -> In v (finals (trace d'))) ->
  nothing_partial d -> nothing_partial d'.
Proof. unfold nothing_partial. intros -> Hin H v Hv. auto. Qed.

Lemma nothing_partial_resolve v (d : driver St) :
  In v (finals (trace d)) ->
  nothing_partial d -> nothing_partial (resolve v d).
Proof.
  intros Hv H. unfold resolve, log. simpl.
  destruct (is_pending (result d)) eqn:Hp; unfold nothing_partial; simpl;
    intros w Hw; rewrite finals_app; apply in_or_app; left.
  - injection Hw as <-. exact Hv.
  - apply H. exact Hw.
Qed.

Lemma nothing_partial_reject e (d : driver St) :
  nothing_partial d -> nothing_partial (reject e d).
Proof.
  intros H. unfold reject, log. simpl.
  destruct (is_pending (result d)) eqn:Hp; unfold nothing_partial; simpl;
    intros w Hw; rewrite finals_app; apply in_or_app; left.
  - discriminate.
  - apply H. exact Hw.
Qed.

Lemma then_keeps_result v (d : driver St) :
  result (fst (then_ v d)) = result d /\
  exists t, trace (fst (then_ v d)) = trace d ++ t /\
            settle_calls t = [] /\ finals t = [].
Proof.
  destruct v; simpl; split; try reflexivity;
    try solve [exists []; rewrite app_nil_r; auto].
  exists [EAwait p]. auto.
Qed.

End SettleFacts.

Section ErrorSettleFacts.
Variable R : Routine.

Lemma error_next_settles ret (d : driver (RState R)) :
  first_call_wins d -> nothing_partial d ->
  (forall r, ret = Some r -> done r = true -> In (value r) (finals (trace d))) ->
  first_call_wins (fst (CoError.next R ret d)) /\
  nothing_partial (fst (CoError.next R ret d)).
Proof.
  intros Hf Hn Hr. unfold CoError.next.
  destruct ret as [r|]; [|simpl; auto].
  destruct (done r) eqn:Hd; simpl.
  - split.
    + apply first_call_resolve. exact Hf.
    + apply nothing_partial_resolve; [apply (Hr r eq_refl Hd) | exact Hn].
  - destruct (then_keeps_result _ (value r) d) as (Hres & t & Ht & Hs & Hfin).
    split.
    + apply (first_call_quiet _ d); try assumption.
      rewrite Ht, settle_calls_app, Hs, app_nil_r. reflexivity.
    + apply (nothing_partial_grows _ d); try assumption.
      intros v Hv. rewrite Ht, finals_app. apply in_or_app. left. exact Hv.
Qed.

Lemma error_resume_then_next_settles i (d : driver (RState R)) :
  first_call_wins d -> nothing_partial d ->
  first_call_wins (fst (CoError.resume_then_next R i d)) /\
  nothing_partial (fst (CoError.resume_then_next R i d)).
Proof.
  intros Hf Hn. rewrite !error_resume_then_next_eq.
  destruct (resume R (gen d) i) as [s' c].
  assert (Hf1 : first_call_wins (resumed i c s' d)).
  { apply (first_call_quiet _ d); try assumption; try reflexivity.
    unfold resumed. simpl. rewrite settle_calls_app. simpl.
    apply app_nil_r. }
  assert (Hn1 : nothing_partial (resumed i c s' d)).
  { apply (nothing_partial_grows _ d); try assumption; try reflexivity.
    intros v Hv. unfold resumed. simpl. rewrite finals_app.
    apply in_or_app. left. exact Hv. }
  destruct c as [r|e].
  - apply error_next_settles; try assumption.
    intros r' [= <-] Hd. unfold resumed. simpl. rewrite finals_app.
    apply in_or_app. right. simpl. rewrite Hd. left. reflexivity.
  - apply error_next_settles.
    + apply first_call_reject. exact Hf1.
    + apply nothing_partial_reject. exact Hn1.
    + discriminate.
Qed.

Lemma error_enter_settles exec i (d : driver (RState R)) :
  first_call_wins d -> nothing_partial d ->
  first_call_wins (CoError.enter R exec i d) /\
  nothing_partial (CoError.enter R exec i d).
Proof.
  intros Hf Hn.
  destruct (error_resume_then_next_settles i d Hf Hn) as (Hf1 & Hn1).
  unfold CoError.enter, executor, swallow.
  destruct (snd (CoError.resume_then_next R i d)) as [e|].
  - destruct exec.
    + split; [apply first_call_reject | apply nothing_partial_reject]; assumption.
    + split.
      * apply (first_call_quiet _ (fst (CoError.resume_then_next R i d)));
          try assumption; try reflexivity.
        unfold log. simpl. rewrite settle_calls_app. apply app_nil_r.
      * apply (nothing_partial_grows _ (fst (CoError.resume_then_next R i d)));
          try assumption; try reflexivity.
        intros v Hv. unfold log. simpl. rewrite finals_app.
        apply in_or_app. left. exact Hv.
  - destruct exec; auto.
Qed.

Lemma error_fire_enter p (d d' : driver (RState R)) :
  CoError.fire R p d = Some d' ->
  exists i, CoError.deliver p = Some i /\
            d' = CoError.enter R false i (log (ESettled p) d).
Proof.
  unfold CoError.fire, CoError.deliver.
  destruct (fate p) as [v|e|]; intros [= <-].
  - exists (Next v). auto.
  - exists (ThrowIn e). auto.
Qed.

Lemma error_reachable_settles (d : driver (RState R)) :
  CoError.reachable R d -> first_call_wins d /\ nothing_partial d.
Proof.
  induction 1 as [|d d' _ (Hf & Hn) Hstep].
  - rewrite error_co_enter. apply error_enter_settles.
    + reflexivity.
    + intros v. discriminate.
  - destruct Hstep as [d d' pre p post E Hfire].
    apply error_fire_enter in Hfire. destruct Hfire as (i & _ & ->).
    apply error_enter_settles.
    + apply (first_call_quiet _ d); try assumption; try reflexivity.
      unfold log. simpl. rewrite settle_calls_app. apply app_nil_r.
    + apply (nothing_partial_grows _ d); try assumption; try reflexivity.
      intros v Hv. unfold log. simpl. rewrite finals_app.
      apply in_or_app. left. exact Hv.
Qed.

Lemma resolve_settled v (d : driver (RState R)) :
  is_pending (result d) = false -> result (resolve v d) = result d.
Proof. intros H. unfold resolve, log. simpl. rewrite H. reflexivity. Qed.

Lemma reject_settled e (d : driver (RState R)) :
  is_pending (result d) = false -> result (reject e d) = result d.
Proof. intros H. unfold reject, log. simpl. rewrite H. reflexivity. Qed.

Lemma error_enter_settled exec i (d : driver (RState R)) :
  is_pending (result d) = false ->
  result (CoError.enter R exec i d) = result d.
Proof.
  intros H.
  assert (Hr : result (fst (CoError.resume_then_next R i d)) = result d).
  { rewrite !error_resume_then_next_eq.
    destruct (resume R (gen d) i) as [s' [r|e]]; unfold CoError.next.
    - destruct (done r); simpl.
      + apply (resolve_settled _ (resumed i (Returns r) s' d)). exact H.
      + apply (then_keeps_result _ (value r) (resumed i (Returns r) s' d)).
    - simpl. apply (reject_settled _ (resumed i (Raises e) s' d)). exact H. }
  unfold CoError.enter, executor, swallow.
  destruct (snd (CoError.resume_then_next R i d)) as [e|]; destruct exec;
    simpl; try exact Hr.
  rewrite reject_settled; [exact Hr | rewrite Hr; exact H].
Qed.

Lemma error_step_settled (d d' : driver (RState R)) :
  step (CoError.fire R) d d' ->
  is_pending (result d) = false -> result d' = result d.
Proof.
  intros [? ? pre p post E Hfire] H.
  apply error_fire_enter in Hfire. destruct Hfire as (i & _ & ->).
  rewrite error_enter_settled; [reflexivity | exact H].
Qed.

Lemma error_steps_settled (d d' : driver (RState R)) :
  steps (CoError.fire R) d d' ->
  is_pending (result d) = false -> result d' = result d.
Proof.
  induction 1 as [d | d1 d2 d3 H12 _ IH]; intros H.
  - reflexivity.
  - pose proof (error_step_settled _ _ H12 H) as E.
    rewrite IH; [exact E | rewrite E; exact H].
Qed.

Lemma run_stuck {St} (fire : promise -> driver St -> option (driver St))
  (n : nat) (d : driver St) :
  tick fire d = d -> run fire n d = d.
Proof.
  intros H. induction n as [|n IH]; simpl.
  - reflexivity.
  - rewrite H. exact IH.
Qed.

(** C8, as the code has it: the Driver Result is decided at most once.
    In every reachable state it is the first of the calls of [resolve] and
    [reject] made so far (pending when there was none), it is resolved
    only with a value with which a resumption finished, and once decided
    no turn of the event loop changes it.  It is decided when the routine
    finishes, with the final value, or a resumption raises, with what was
    raised, and is pending before; and it stays pending for ever when a
    yielded promise never settles. *)
Theorem error_co_decided_at_most_once :
  (forall d, CoError.reachable R d ->
     result d = hd PPending (settle_calls (trace d)) /\
     (forall v, result d = PResolved v -> In v (finals (trace d))) /\
     (forall d', steps (CoError.fire R) d d' ->
                 result d <> PPending -> result d' = result d)) /\
  (forall l s i s' v,
     reaches R CoError.deliver (g_init R) (Next VUndefined) l s i ->
     resume R s i = (s', Returns (mkIter true v)) ->
     let d := run (CoError.fire R) (length l) (CoError.co R) in
     result d = PResolved v /\
     (is_promise v = false -> fate (result d) = Fulfilled v) /\
     (forall n, run (CoError.fire R) n d = d) /\
     (forall n, (n < length l)%nat ->
                result (run (CoError.fire R) n (CoError.co R)) = PPending)) /\
  (forall l s i s' e,
     reaches R CoError.deliver (g_init R) (Next VUndefined) l s i ->
     resume R s i = (s', Raises e) ->
     let d := run (CoError.fire R) (length l) (CoError.co R) in
     result d = PRejected e /\
     fate (result d) = Rejected e /\
     (forall n, run (CoError.fire R) n d = d) /\
     (forall n, (n < length l)%nat ->
                result (run (CoError.fire R) n (CoError.co R)) = PPending)) /\
  (forall l s i s' p,
     reaches R CoError.deliver (g_init R) (Next VUndefined) l s i ->
     resume R s i = (s', Returns (mkIter false (VPromise p))) ->
     fate p = Unsettled ->
     forall n, result (run (CoError.fire R) n (CoError.co R)) = PPending).
Proof.
  assert (Hpend : forall l s i,
    reaches R CoError.deliver (g_init R) (Next VUndefined) l s i ->
    forall n, (n < length l)%nat ->
      result (run (CoError.fire R) n (CoError.co R)) = PPending).
  { intros l s i Hr n Hn. rewrite error_co_enter.
    apply (error_reaches_pending R _ _ _ _ _ Hr true
             (mkDriver (g_init R) PPending [] []) n eq_refl eq_refl Hn). }
  split; [|split; [|split]].
  - intros d H. destruct (error_reachable_settles d H) as (Hf & Hn).
    repeat split.
    + exact Hf.
    + exact Hn.
    + intros d' Hs Hp. apply error_steps_settled; [exact Hs|].
      destruct (result d); [destruct (Hp eq_refl) | reflexivity | reflexivity].
  - intros l s i s' v Hr H. cbv zeta.
    split; [|split; [|split]]; [| | |exact (Hpend l s i Hr)];
      rewrite error_co_enter;
      destruct (error_reaches_run R _ _ _ _ _ Hr true
                  (mkDriver (g_init R) PPending [] []) eq_refl eq_refl)
        as (exec' & d' & Hg' & Hs' & Hr' & _ & Hrun);
      simpl in Hr'; subst s;
      rewrite Hrun, (error_enter_return R exec' _ _ _ _ H Hr').
    + reflexivity.
    + apply fate_resolved_plain.
    + intros n. apply run_idle. exact Hs'.
  - intros l s i s' e Hr H. cbv zeta.
    split; [|split; [|split]]; [| | |exact (Hpend l s i Hr)];
      rewrite error_co_enter;
      destruct (error_reaches_run R _ _ _ _ _ Hr true
                  (mkDriver (g_init R) PPending [] []) eq_refl eq_refl)
        as (exec' & d' & Hg' & Hs' & Hr' & _ & Hrun);
      simpl in Hr'; subst s;
      rewrite Hrun, (error_enter_raise R exec' _ _ _ _ H Hr').
    + reflexivity.
    + reflexivity.
    + intros n. apply run_idle. exact Hs'.
  - intros l s i s' p Hr H Hf n.
    destruct (Nat.lt_ge_cases n (length l)) as [Hn|Hn];
      [exact (Hpend l s i Hr n Hn)|].
    replace n with (length l + (n - length l))%nat by lia.
    rewrite run_add, error_co_enter.
    destruct (error_reaches_run R _ _ _ _ _ Hr true
                (mkDriver (g_init R) PPending [] []) eq_refl eq_refl)
      as (exec' & d' & Hg' & Hs' & Hr' & _ & Hrun).
    simpl in Hr'. subst s.
    rewrite Hrun, (error_enter_yield R exec' _ _ _ _ H).
    rewrite run_stuck.
    + exact Hr'.
    + unfold tick. rewrite Hs'. simpl. unfold CoError.fire. rewrite Hf.
      reflexivity.
Qed.

End ErrorSettleFacts.

Section ErrorOrderFacts.
Variable R : Routine.

Lemma error_enter_orderly exec i (d : driver (RState R)) ph :
  phase_of (trace d) = Some ph ->
  (forall c, advance ph (EResume i c) = Some Running) ->
  subs d = [] ->
  orderly (CoError.enter R exec i d).
Proof.
  intros Hph Hadv Hs. unfold CoError.enter. rewrite !error_resume_then_next_eq.
  destruct (resume R (gen d) i) as [s' [[[|] x]|e]]; unfold CoError.next.
  - exists Running.
    destruct exec; unfold executor, swallow, resolve, log; simpl;
      destruct (is_pending (result d)); simpl;
      rewrite !phase_of_snoc, Hph; cbv beta iota; rewrite Hadv; simpl; auto.
  - destruct x; unfold orderly;
      destruct exec; unfold executor, swallow, reject, log; simpl;
      try destruct (is_pending (result d)); simpl;
      rewrite !phase_of_snoc, Hph, ?Hs; cbv beta iota; rewrite Hadv;
      simpl; eauto.
  - exists Running.
    destruct exec; unfold executor, swallow, reject, log; simpl;
      destruct (is_pending (result d)) eqn:E; simpl; rewrite ?E; simpl;
      rewrite !phase_of_snoc, Hph; cbv beta iota; rewrite Hadv; simpl; auto.
Qed.

(** The driver with error handling keeps the same order as the simple
    one. *)
Lemma error_co_one_at_a_time (d : driver (RState R)) :
  CoError.reachable R d -> orderly d /\ (length (subs d) <= 1)%nat.
Proof.
  intros H.
  assert (Ho : orderly d).
  { induction H as [|d d' _ IH Hstep].
    - rewrite error_co_enter.
      apply (error_enter_orderly true (Next VUndefined) _ Ready);
        [reflexivity | apply advance_first | reflexivity].
    - destruct IH as (ph & Hph & Hsub).
      destruct Hstep as [d d' pre p post E Hf].
      rewrite Hsub in E. symmetry in E.
      apply outstanding_single in E. destruct E as (-> & -> & ->).
      apply error_fire_enter in Hf. destruct Hf as (j & Hd & ->).
      apply (error_enter_orderly false j _ (Settled j)).
      + unfold log. simpl. rewrite phase_of_snoc, Hph.
        apply advance_settled. exact Hd.
      + apply advance_resume.
      + reflexivity. }
  split; [exact Ho|].
  destruct Ho as (ph & _ & ->). destruct ph; simpl; lia.
Qed.

Lemma error_enter_resumptions_early exec i (d : driver (RState R)) :
  resumptions (CoError.enter R exec i d) = resumptions d ++ [i].
Proof.
  unfold CoError.enter. rewrite !error_resume_then_next_eq.
  destruct (resume R (gen d) i) as [s' [[[|] x]|e]]; unfold CoError.next.
  - destruct exec; unfold executor, swallow, resolve, log, resumptions; simpl;
      destruct (is_pending (result d)); simpl;
      rewrite !inputs_app; simpl; rewrite !app_nil_r; auto.
  - destruct x; destruct exec;
      unfold executor, swallow, reject, log, resumptions; simpl;
      try destruct (is_pending (result d)); simpl;
      rewrite !inputs_app; simpl; rewrite ?app_nil_r; auto.
  - destruct exec; unfold executor, swallow, reject, log, resumptions; simpl;
      destruct (is_pending (result d)) eqn:E; simpl; rewrite ?E; simpl;
      rewrite !inputs_app; simpl; rewrite !app_nil_r; auto.
Qed.

End ErrorOrderFacts.

(** ** The hand-written adder *)

Section AdderFacts.
Import Adder.

Lemma adder_runner_values :
  runner =
  [Return false (Num 0); Return false (Num 1); Return false (Num 3);
   Return false (Num 1); Return false (Num 5)].
Proof. reflexivity. Qed.

Lemma adder_invoke_not_done c a :
  done a = false ->
  done (fst (invoke c a)) = false /\
  forall d v, snd (invoke c a) = Return d v -> d = false.
Proof.
  intros H.
  assert (Hgo : forall x e,
            done (fst (go x e a)) = false /\
            forall d v, snd (go x e a) = Return d v -> d = false).
  { intros x e. unfold go. destruct (state a); destruct (truthy e); simpl;
      rewrite ?H; split; auto; intros d v [= <- _]; reflexivity. }
  destruct c as [x|e|x e]; unfold invoke, next, throw; apply Hgo.
Qed.

Lemma adder_never_done cs a :
  done a = false ->
  Forall (fun o => forall d v, o = Return d v -> d = false) (play cs a).
Proof.
  revert a. induction cs as [|c cs IH]; intros a H; simpl.
  - constructor.
  - destruct (adder_invoke_not_done c a H) as (H1 & H2).
    constructor; [exact H2 | apply IH; exact H1].
Qed.

Lemma adder_initial_fault_propagates init e :
  truthy e = true -> throw e (adder init) = (adder init, Throw e).
Proof. intros H. unfold throw, go. simpl. rewrite H. reflexivity. Qed.

Lemma adder_loop_fault_restores_lastSum e a :
  state a = loop -> truthy e = true ->
  sum (fst (throw e a)) = lastSum a /\
  snd (throw e a) = Return (done a) (lastSum a).
Proof.
  intros H He. unfold throw, go. rewrite H, He. split; reflexivity.
Qed.

(** The generator of the README does revert to the sum before the
    most recent successful addition, whatever the calls. *)
Lemma generator_follows_history cs cur prev :
  AdderGenerator.after cs (AdderGenerator.AtYield cur prev cur) =
  AdderGenerator.AtYield (fst (sum_history cs cur prev))
    (snd (sum_history cs cur prev)) (fst (sum_history cs cur prev)).
Proof.
  revert cur prev. induction cs as [|c cs IH]; intros cur prev.
  - reflexivity.
  - destruct c as [x|e|x e]; simpl; apply IH.
Qed.

Lemma generator_fault_reverts cs cur prev e :
  snd (AdderGenerator.throw e
         (AdderGenerator.after cs (AdderGenerator.AtYield cur prev cur))) =
  Return false (snd (sum_history cs cur prev)).
Proof. rewrite generator_follows_history. reflexivity. Qed.

(** C9: after the calls of [runner], which give 0, 1, 3, 1 and 5, one
    more injected fault makes the hand-written adder give 3, the sum it
    had two additions ago, where the sum before the most recent addition
    (of 4 to 1) was 1, which is what the generator of the README gives. *)
Theorem adder_second_fault_restores_stale_sum :
  play (runner_calls ++ [CallThrow BOO]) (adder (Num 0)) =
    [Return false (Num 0); Return false (Num 1); Return false (Num 3);
     Return false (Num 1); Return false (Num 5); Return false (Num 3)] /\
  AdderGenerator.play (runner_calls ++ [CallThrow BOO])
    (AdderGenerator.Start (Num 0)) =
    [Return false (Num 0); Return false (Num 1); Return false (Num 3);
     Return false (Num 1); Return false (Num 5); Return false (Num 1)] /\
  sum_history (tl runner_calls) (Num 0) (Num 0) = (Num 5, Num 1).
Proof. repeat split. Qed.

End AdderFacts.

(** ** The drivers at work *)

Section Runs.
Import Routines.

(** The programs at the head of the two solutions. *)
Lemma simple_co_asyncAdds :
  let d := run (CoSimple.fire asyncAdds) 3 (CoSimple.co asyncAdds) in
  result d = PResolved VUndefined /\
  snd (gen d) = [VNum 1; VNum 2; VNum 3] /\
  resumptions d = [Next VUndefined; Next (VNum 1); Next (VNum 2); Next (VNum 3)].
Proof. repeat split. Qed.

Lemma error_co_asyncAdds :
  let d := run (CoError.fire asyncAdds_recovering) 2
             (CoError.co asyncAdds_recovering) in
  result d = PResolved VUndefined /\
  snd (gen d) = [VNum 1; VStr "We recovered!"; VNum 3] /\
  resumptions d = [Next VUndefined; Next (VNum 1); Next (VNum 3)].
Proof. repeat split. Qed.

Lemma sumThree_completes :
  CoSimple.completes sumThree (g_init sumThree) VUndefined
    [VNum 1; VNum 2; VNum 3] (VNum 6).
Proof.
  repeat (eapply CoSimple.completes_yield; [reflexivity | reflexivity |]).
  eapply CoSimple.completes_return. reflexivity.
Defined.

Lemma simple_co_sums_to_six :
  CoSimple.completes sumThree (g_init sumThree) VUndefined
    [VNum 1; VNum 2; VNum 3] (VNum 6) /\
  result (run (CoSimple.fire sumThree) 3 (CoSimple.co sumThree))
    = PResolved (VNum 6) /\
  resumptions (run (CoSimple.fire sumThree) 3 (CoSimple.co sumThree))
    = [Next VUndefined; Next (VNum 1); Next (VNum 2); Next (VNum 3)].
Proof.
  split; [exact sumThree_completes|].
  destruct (simple_co_resumes_with_each_value sumThree _ _ sumThree_completes)
    as (Hr & _ & Hi & _).
  split; [exact Hr | exact Hi].
Defined.

Lemma simple_co_immediate :
  g_next immediate (g_init immediate) VUndefined
    = ([], Returns (mkIter true (VNum 42))) /\
  result (CoSimple.co immediate) = PResolved (VNum 42) /\
  resumptions (CoSimple.co immediate) = [Next VUndefined].
Proof.
  split; [reflexivity|].
  destruct (simple_co_finishes_at_once immediate [] (VNum 42) eq_refl)
    as (Hr & _ & Hi & _).
  split; [exact Hr | exact Hi].
Defined.

Lemma plainSecond_reaches_simple :
  reaches plainSecond CoSimple.deliver (g_init plainSecond) (Next VUndefined)
    [Next (VNum 1)] [yields (VNum 5)] (Next (VNum 1)).
Proof.
  eapply reaches_await; [reflexivity | reflexivity |]. apply reaches_here.
Defined.

(** The routine that yields a fulfilled promise and then, not finished,
    the number 5 is resumed twice by the simple driver; the [TypeError]
    is the last thing that happens, and the Driver Result is pending at
    every turn. *)
Lemma simple_co_plain_second_never_settles :
  reaches plainSecond CoSimple.deliver (g_init plainSecond) (Next VUndefined)
    [Next (VNum 1)] [yields (VNum 5)] (Next (VNum 1)) /\
  g_next plainSecond [yields (VNum 5)] (VNum 1)
    = ([], Returns (mkIter false (VNum 5))) /\
  is_promise (VNum 5) = false /\
  [Next (VNum 1)] <> [] /\
  resumptions (run (CoSimple.fire plainSecond) 1 (CoSimple.co plainSecond))
    = [Next VUndefined; Next (VNum 1)] /\
  (forall n,
     result (run (CoSimple.fire plainSecond) n
               (run (CoSimple.fire plainSecond) 1 (CoSimple.co plainSecond)))
     = PPending) /\
  exists k t,
    trace (run (CoSimple.fire plainSecond) 1 (CoSimple.co plainSecond))
    = t ++ [EUncaught (VTypeError k)].
Proof.
  split; [exact plainSecond_reaches_simple|].
  split; [reflexivity|]. split; [reflexivity|]. split; [discriminate|].
  destruct (simple_co_non_promise_yield plainSecond [Next (VNum 1)] _ _ _ _
              plainSecond_reaches_simple eq_refl eq_refl)
    as (Hi & _ & _ & k & _ & Hl).
  split; [exact Hi|].
  destruct Hl as (Hp & t & Ht); [discriminate|].
  split; [exact Hp | exists k, t; exact Ht].
Defined.

Lemma sumThree_reachable :
  CoSimple.reachable sumThree
    (tick (CoSimple.fire sumThree) (CoSimple.co sumThree)).
Proof.
  eapply CoSimple.reachable_step; [apply CoSimple.reachable_co|].
  apply step_fire with (pre := []) (p := PResolved (VNum 1)) (post := []);
    reflexivity.
Defined.

Lemma simple_co_sumThree_one_at_a_time :
  CoSimple.reachable sumThree
    (tick (CoSimple.fire sumThree) (CoSimple.co sumThree)) /\
  subs (tick (CoSimple.fire sumThree) (CoSimple.co sumThree))
    = [PResolved (VNum 2)] /\
  sequential (trace (tick (CoSimple.fire sumThree) (CoSimple.co sumThree))).
Proof.
  split; [exact sumThree_reachable|]. split; [reflexivity|].
  destruct (simple_co_one_at_a_time sumThree _ sumThree_reachable)
    as (_ & H & _).
  exact H.
Defined.

Lemma recovers_reaches :
  reaches recovers CoError.deliver (g_init recovers) (Next VUndefined)
    [Next (VNum 1); ThrowIn toFail; Next (VNum 3)]
    (3%nat, 11%Z) (Next (VNum 3)).
Proof.
  repeat (eapply reaches_await; [reflexivity | reflexivity |]).
  apply reaches_here.
Defined.

Lemma error_co_recovers :
  reaches recovers CoError.deliver (g_init recovers) (Next VUndefined)
    [Next (VNum 1); ThrowIn toFail; Next (VNum 3)]
    (3%nat, 11%Z) (Next (VNum 3)) /\
  resume recovers (3%nat, 11%Z) (Next (VNum 3))
    = ((4%nat, 11%Z), Returns (mkIter true (VNum 14))) /\
  In (ThrowIn toFail) [Next (VNum 1); ThrowIn toFail; Next (VNum 3)] /\
  result (run (CoError.fire recovers) 3 (CoError.co recovers))
    = PResolved (VNum 14) /\
  In (ThrowIn toFail)
    (resumptions (run (CoError.fire recovers) 3 (CoError.co recovers))).
Proof.
  split; [exact recovers_reaches|]. split; [reflexivity|].
  assert (Hin : In (ThrowIn toFail)
                  [Next (VNum 1); ThrowIn toFail; Next (VNum 3)])
    by (right; left; reflexivity).
  split; [exact Hin|].
  destruct (error_co_recovers_from_caught_fault recovers _ _ _ _ _ toFail
              recovers_reaches eq_refl Hin) as (Hr & _ & _ & Hi & _).
  split; [exact Hr | exact Hi].
Defined.

Lemma unhandled_reaches :
  reaches unhandled CoError.deliver (g_init unhandled) (Next VUndefined)
    [ThrowIn toFail] [] (ThrowIn toFail).
Proof.
  eapply reaches_await; [reflexivity | reflexivity |]. apply reaches_here.
Defined.

Lemma error_co_unhandled :
  reaches unhandled CoError.deliver (g_init unhandled) (Next VUndefined)
    [ThrowIn toFail] [] (ThrowIn toFail) /\
  g_throw unhandled [] toFail = ([], Raises toFail) /\
  result (run (CoError.fire unhandled) 1 (CoError.co unhandled))
    = PRejected toFail /\
  resumptions (run (CoError.fire unhandled) 1 (CoError.co unhandled))
    = [Next VUndefined; ThrowIn toFail].
Proof.
  split; [exact unhandled_reaches|]. split; [reflexivity|].
  destruct (error_co_unhandled_fault unhandled _ _ _ _
              unhandled_reaches eq_refl) as (Hr & Hi & _).
  split; [exact Hr | exact Hi].
Defined.

Lemma raising_reaches :
  reaches raising CoError.deliver (g_init raising) (Next VUndefined)
    [Next (VNum 1)] [Raises (VError "boom")] (Next (VNum 1)).
Proof.
  eapply reaches_await; [reflexivity | reflexivity |]. apply reaches_here.
Defined.

Lemma error_co_raising :
  reaches raising CoError.deliver (g_init raising) (Next VUndefined)
    [Next (VNum 1)] [Raises (VError "boom")] (Next (VNum 1)) /\
  g_next raising [Raises (VError "boom")] (VNum 1)
    = ([], Raises (VError "boom")) /\
  result (run (CoError.fire raising) 1 (CoError.co raising))
    = PRejected (VError "boom") /\
  resumptions (run (CoError.fire raising) 1 (CoError.co raising))
    = [Next VUndefined; Next (VNum 1)].
Proof.
  split; [exact raising_reaches|]. split; [reflexivity|].
  destruct (error_co_routine_raises raising _ _ _ _ _
              raising_reaches eq_refl) as (Hr & Hi & _).
  split; [exact Hr | exact Hi].
Defined.

Lemma error_co_decided_at_work :
  (CoError.reachable failsAtOnce (CoError.co failsAtOnce) /\
   settle_calls (trace (CoError.co failsAtOnce))
     = [PRejected (VError "boom"); PRejected (VTypeError ReadOfUndefined)] /\
   result (CoError.co failsAtOnce) = PRejected (VError "boom")) /\
  (reaches recovers CoError.deliver (g_init recovers) (Next VUndefined)
     [Next (VNum 1); ThrowIn toFail; Next (VNum 3)]
     (3%nat, 11%Z) (Next (VNum 3)) /\
   fate (result (run (CoError.fire recovers) 3 (CoError.co recovers)))
     = Fulfilled (VNum 14)) /\
  (reaches unhandled CoError.deliver (g_init unhandled) (Next VUndefined)
     [ThrowIn toFail] [] (ThrowIn toFail) /\
   result (run (CoError.fire unhandled) 1 (CoError.co unhandled))
     = PRejected toFail) /\
  (fate PPending = Unsettled /\
   forall n, result (run (CoError.fire waits) n (CoError.co waits)) = PPending).
Proof.
  destruct (error_co_decided_at_most_once failsAtOnce) as (HA & _).
  destruct (error_co_decided_at_most_once recovers) as (_ & HB & _).
  destruct (error_co_decided_at_most_once unhandled) as (_ & _ & HC & _).
  destruct (error_co_decided_at_most_once waits) as (_ & _ & _ & HD).
  split; [|split; [|split]].
  - split; [apply CoError.reachable_co|]. split; [reflexivity|].
    destruct (HA _ (CoError.reachable_co failsAtOnce)) as (H & _).
    rewrite H. reflexivity.
  - split; [exact recovers_reaches|].
    destruct (HB _ _ _ _ _ recovers_reaches eq_refl) as (_ & H & _).
    apply H. reflexivity.
  - split; [exact unhandled_reaches|].
    destruct (HC _ _ _ _ _ unhandled_reaches eq_refl) as (H & _).
    exact H.
  - split; [reflexivity|].
    apply (HD [] _ _ _ _ (reaches_here waits CoError.deliver _ _) eq_refl eq_refl).
Defined.

(** C8 as stated fails: a drive need not settle the Driver Result at
    all.  The routine that waits for a promise nobody settles leaves it
    pending at every turn; so does, with nothing left to happen, the
    routine that yields a fulfilled promise and then the number 5. *)
Lemma error_co_never_settled :
  (forall n, result (run (CoError.fire waits) n (CoError.co waits)) = PPending) /\
  subs (run (CoError.fire plainSecond) 1 (CoError.co plainSecond)) = [] /\
  (forall n,
     result (run (CoError.fire plainSecond) n (CoError.co plainSecond))
     = PPending) /\
  ~ (exists n,
       fate (result (run (CoError.fire plainSecond) n (CoError.co plainSecond)))
       <> Unsettled).
Proof.
  assert (Hw : forall n,
    result (run (CoError.fire waits) n (CoError.co waits)) = PPending).
  { intros n. rewrite run_stuck; reflexivity. }
  assert (Hp : forall n,
    result (run (CoError.fire plainSecond) n (CoError.co plainSecond))
    = PPending).
  { intros [|n]; [reflexivity|]. cbn [run]. rewrite run_idle; reflexivity. }
  split; [exact Hw|]. split; [reflexivity|]. split; [exact Hp|].
  intros (n & H). apply H. rewrite Hp. reflexivity.
Qed.

Lemma error_onResolve_failsAtOnce :
  resume failsAtOnce (g_init failsAtOnce) (Next VUndefined)
    = ([], Raises (VError "boom")) /\
  CoError.onResolve failsAtOnce VUndefined
    (mkDriver (g_init failsAtOnce) PPending [] [])
  = (mkDriver [] (PRejected (VError "boom")) []
       [EResume (Next VUndefined) (Raises (VError "boom"));
        EReject (VError "boom")],
     Some (VTypeError ReadOfUndefined)).
Proof.
  split; [reflexivity|].
  destruct (error_callback_goes_on_after_raise failsAtOnce
              (mkDriver (g_init failsAtOnce) PPending [] [])
              (Next VUndefined) [] (VError "boom") eq_refl)
    as (_ & H & _).
  exact H.
Defined.

End Runs.

(** * Further properties *)

(** ** The simple driver when things go wrong *)

Section SimpleFailures.
Variable R : Routine.

Lemma simple_tick_rejected exec v (d : driver (RState R)) s1 p e :
  g_next R (gen d) v = (s1, Returns (mkIter false (VPromise p))) ->
  subs d = [] ->
  fate p = Rejected e ->
  tick (CoSimple.fire R) (CoSimple.enter R exec v d) =
  mkDriver s1 (result d) []
    ((((trace d ++ [EResume (Next v) (Returns (mkIter false (VPromise p)))])
         ++ [EAwait p]) ++ [ESettled p]) ++ [EUncaught e]).
Proof.
  intros H Hs Hf. rewrite (simple_enter_yield R exec _ _ _ _ H).
  unfold tick. rewrite Hs. simpl. unfold CoSimple.fire. rewrite Hf.
  reflexivity.
Qed.

(** X1: the simple driver registers no callback for rejection; when a
    yielded promise is rejected, the routine is never resumed again and
    the Driver Result stays pending at every later turn. *)
Theorem simple_co_stalls_on_rejection
  (l : list input) (s s' : RState R) (w e : jsval) (p : promise) :
  reaches R CoSimple.deliver (g_init R) (Next VUndefined) l s (Next w) ->
  g_next R s w = (s', Returns (mkIter false (VPromise p))) ->
  fate p = Rejected e ->
  forall n,
    let d := run (CoSimple.fire R) (length l + 1 + n) (CoSimple.co R) in
    result d = PPending /\
    resumptions d = Next VUndefined :: l /\
    subs d = [].
Proof.
  intros Hr H Hf n. cbv zeta. rewrite simple_co_enter.
  destruct (simple_reaches_run R _ _ _ _ _ Hr VUndefined true
              (mkDriver (g_init R) PPending [] []) eq_refl eq_refl eq_refl)
    as (v' & exec' & d' & Hi' & Hg' & Hs' & Hr' & Hin & Hrun & _).
  injection Hi' as <-. subst s.
  rewrite !run_add, Hrun. cbn [run].
  rewrite (simple_tick_rejected exec' _ _ _ _ _ H Hs' Hf).
  rewrite run_idle by reflexivity.
  simpl. repeat split.
  - exact Hr'.
  - unfold resumptions in *. simpl in *. rewrite !inputs_app. simpl.
    rewrite !app_nil_r. exact Hin.
Qed.

(** X2: the simple driver has no [try] around [g.next]; when the first
    resumption raises, the exception leaves the executor and rejects the
    Driver Result, and when a later one raises, it is lost in the callback
    and the Driver Result stays pending; either way the routine is not
    resumed again. *)
Theorem simple_co_routine_raises
  (l : list input) (s s' : RState R) (w e : jsval) :
  reaches R CoSimple.deliver (g_init R) (Next VUndefined) l s (Next w) ->
  g_next R s w = (s', Raises e) ->
  let d := run (CoSimple.fire R) (length l) (CoSimple.co R) in
  resumptions d = Next VUndefined :: l /\
  subs d = [] /\
  (forall n, run (CoSimple.fire R) n d = d) /\
  (l = [] -> result d = PRejected e) /\
  (l <> [] -> result d = PPending).
Proof.
  intros Hr H. cbv zeta. rewrite simple_co_enter.
  destruct (simple_reaches_run R _ _ _ _ _ Hr VUndefined true
              (mkDriver (g_init R) PPending [] []) eq_refl eq_refl eq_refl)
    as (v' & exec' & d' & Hi' & Hg' & Hs' & Hr' & Hin & Hrun & He1 & He2).
  injection Hi' as <-. rewrite Hrun. subst s.
  rewrite (simple_enter_raise R exec' _ _ _ _ H).
  simpl in Hr'. unfold resumptions in Hin. simpl in Hin.
  assert (Hin' : inputs (trace d' ++ [EResume (Next w) (Raises e)])
                 = Next VUndefined :: l).
  { rewrite inputs_app. exact Hin. }
  destruct exec'; unfold reject, log, resumptions; simpl; rewrite Hr'; simpl;
    rewrite inputs_app, Hin', app_nil_r; (repeat split); try assumption.
  - intros n. apply run_idle. exact Hs'.
  - intros Hl. discriminate (He2 Hl).
  - intros n. apply run_idle. exact Hs'.
  - intros Hl. discriminate (He1 Hl).
Qed.

End SimpleFailures.

(** ** Single assignment in the simple driver *)

Section QuietFacts.
Variable St : Type.

Lemma first_call_log e (d : driver St) :
  settle_calls [e] = [] -> first_call_wins d -> first_call_wins (log e d).
Proof.
  intros He H. apply (first_call_quiet _ d); try assumption; try reflexivity.
  unfold log. simpl. rewrite settle_calls_app, He. apply app_nil_r.
Qed.

Lemma nothing_partial_log e (d : driver St) :
  nothing_partial d -> nothing_partial (log e d).
Proof.
  intros H. apply (nothing_partial_grows _ d); try assumption; try reflexivity.
  intros v Hv. unfold log. simpl. rewrite finals_app.
  apply in_or_app. left. exact Hv.
Qed.

Lemma first_call_resumed i c s' (d : driver St) :
  first_call_wins d -> first_call_wins (resumed i c s' d).
Proof.
  intros H. apply (first_call_quiet _ d); try assumption; try reflexivity.
  unfold resumed. simpl. rewrite settle_calls_app. apply app_nil_r.
Qed.

Lemma nothing_partial_resumed i c s' (d : driver St) :
  nothing_partial d -> nothing_partial (resumed i c s' d).
Proof.
  intros H. apply (nothing_partial_grows _ d); try assumption; try reflexivity.
  intros v Hv. unfold resumed. simpl. rewrite finals_app.
  apply in_or_app. left. exact Hv.
Qed.

Lemma executor_settles (r : driver St * option jsval) :
  first_call_wins (fst r) -> nothing_partial (fst r) ->
  first_call_wins (executor r) /\ nothing_partial (executor r).
Proof.
  intros Hf Hn. unfold executor. destruct (snd r) as [e|].
  - split; [apply first_call_reject | apply nothing_partial_reject]; assumption.
  - auto.
Qed.

Lemma swallow_settles (r : driver St * option jsval) :
  first_call_wins (fst r) -> nothing_partial (fst r) ->
  first_call_wins (swallow r) /\ nothing_partial (swallow r).
Proof.
  intros Hf Hn. unfold swallow. destruct (snd r) as [e|].
  - split; [apply first_call_log | apply nothing_partial_log];
      assumption || reflexivity.
  - auto.
Qed.

Lemma swallow_result (r : driver St * option jsval) :
  result (swallow r) = result (fst r) /\ subs (swallow r) = subs (fst r).
Proof. unfold swallow. destruct (snd r); split; reflexivity. Qed.

End QuietFacts.

Section SimpleSettleFacts.
Variable R : Routine.

Lemma simple_next_settles v (d : driver (RState R)) :
  first_call_wins d -> nothing_partial d ->
  first_call_wins (fst (CoSimple.next R v d)) /\
  nothing_partial (fst (CoSimple.next R v d)).
Proof.
  intros Hf Hn. unfold CoSimple.next.
  destruct (g_next R (gen d) v) as [s' c].
  pose proof (first_call_resumed _ (Next v) c s' d Hf) as Hf1.
  pose proof (nothing_partial_resumed _ (Next v) c s' d Hn) as Hn1.
  destruct c as [ret|e]; [|simpl; auto].
  destruct (done ret) eqn:Hd; simpl.
  - split.
    + apply first_call_resolve. exact Hf1.
    + apply nothing_partial_resolve; [|exact Hn1].
      unfold resumed. simpl. rewrite finals_app. apply in_or_app. right.
      simpl. rewrite Hd. left. reflexivity.
  - destruct (then_keeps_result _ (value ret) (resumed (Next v) (Returns ret) s' d))
      as (Hres & t & Ht & Hs & Hfin).
    split.
    + apply (first_call_quiet _ (resumed (Next v) (Returns ret) s' d));
        try assumption.
      rewrite Ht, settle_calls_app, Hs, app_nil_r. reflexivity.
    + apply (nothing_partial_grows _ (resumed (Next v) (Returns ret) s' d));
        try assumption.
      intros x Hx. rewrite Ht, finals_app. apply in_or_app. left. exact Hx.
Qed.

Lemma simple_enter_settles exec v (d : driver (RState R)) :
  first_call_wins d -> nothing_partial d ->
  first_call_wins (CoSimple.enter R exec v d) /\
  nothing_partial (CoSimple.enter R exec v d).
Proof.
  intros Hf Hn. destruct (simple_next_settles v d Hf Hn) as (Hf1 & Hn1).
  unfold CoSimple.enter. destruct exec.
  - apply executor_settles; assumption.
  - apply swallow_settles; assumption.
Qed.

Lemma simple_fire_cases p (d d' : driver (RState R)) :
  CoSimple.fire R p d = Some d' ->
  (exists v, fate p = Fulfilled v /\
             d' = CoSimple.enter R false v (log (ESettled p) d)) \/
  (exists e, fate p = Rejected e /\
             d' = log (EUncaught e) (log (ESettled p) d)).
Proof.
  unfold CoSimple.fire.
  destruct (fate p) as [v|e|]; intros [= <-].
  - left. exists v. auto.
  - right. exists e. auto.
Qed.

Lemma simple_reachable_settles (d : driver (RState R)) :
  CoSimple.reachable R d -> first_call_wins d /\ nothing_partial d.
Proof.
  induction 1 as [|d d' _ (Hf & Hn) Hstep].
  - rewrite simple_co_enter. apply simple_enter_settles.
    + reflexivity.
    + intros v. discriminate.
  - destruct Hstep as [d d' pre p post E Hfire].
    assert (Hf0 : first_call_wins (log (ESettled p) (set_subs (pre ++ post) d))).
    { apply first_call_log; [reflexivity|].
      apply (first_call_quiet _ d); try assumption; reflexivity. }
    assert (Hn0 : nothing_partial (log (ESettled p) (set_subs (pre ++ post) d))).
    { apply nothing_partial_log.
      apply (nothing_partial_grows _ d); try assumption; try reflexivity.
      auto. }
    apply simple_fire_cases in Hfire.
    destruct Hfire as [(v & _ & ->)|(e & _ & ->)].
    + apply simple_enter_settles; assumption.
    + split; [apply first_call_log | apply nothing_partial_log];
        assumption || reflexivity.
Qed.

(** What a callback of the simple driver can do to the Driver Result:
    leave it, or resolve it when it is pending. *)
Lemma simple_callback_result v (d : driver (RState R)) :
  result (CoSimple.enter R false v d) = result d \/
  (result d = PPending /\
   exists x, result (CoSimple.enter R false v d) = PResolved x).
Proof.
  unfold CoSimple.enter.
  destruct (swallow_result _ (CoSimple.next R v d)) as (-> & _).
  unfold CoSimple.next. destruct (g_next R (gen d) v) as [s' [ret|e]].
  - destruct (done ret); simpl.
    + unfold resolve, log. simpl.
      destruct (result d) eqn:E; simpl; rewrite ?E; auto.
      right. split; [reflexivity|]. exists (value ret). reflexivity.
    + left. apply (then_keeps_result _ (value ret)
                     (resumed (Next v) (Returns ret) s' d)).
  - left. reflexivity.
Qed.

Lemma simple_step_result (d d' : driver (RState R)) :
  step (CoSimple.fire R) d d' ->
  result d' = result d \/
  (result d = PPending /\ exists x, result d' = PResolved x).
Proof.
  intros Hstep. destruct Hstep as [d d' pre p post E Hfire].
  apply simple_fire_cases in Hfire.
  destruct Hfire as [(v & _ & ->)|(e & _ & ->)].
  - apply (simple_callback_result v (log (ESettled p) (set_subs (pre ++ post) d))).
  - left. reflexivity.
Qed.

Lemma simple_steps_settled (d d' : driver (RState R)) :
  steps (CoSimple.fire R) d d' ->
  result d <> PPending -> result d' = result d.
Proof.
  induction 1 as [d | d1 d2 d3 H12 _ IH]; intros H.
  - reflexivity.
  - destruct (simple_step_result _ _ H12) as [E|(E & _)].
    + rewrite IH; [exact E | rewrite E; exact H].
    + destruct (H E).
Qed.

(** X3: in every state the simple driver can reach, the Driver Result is
    the first of the calls of [resolve] and [reject] made so far; a value
    it is resolved with is one with which a resumption of the routine
    finished; and once it is not pending, no turn of the event loop
    changes it. *)
Theorem simple_co_settles_once (d : driver (RState R)) :
  CoSimple.reachable R d ->
  result d = hd PPending (settle_calls (trace d)) /\
  (forall v, result d = PResolved v -> In v (finals (trace d))) /\
  (forall d', steps (CoSimple.fire R) d d' ->
              result d <> PPending -> result d' = result d).
Proof.
  intros H. destruct (simple_reachable_settles d H) as (Hf & Hn).
  repeat split.
  - exact Hf.
  - exact Hn.
  - intros d' Hs Hp. apply simple_steps_settled; assumption.
Qed.

(** The simple driver calls [reject] in its executor or not at all. *)
Lemma simple_reject_in_executor_only (d : driver (RState R)) (e : jsval) :
  CoSimple.reachable R d ->
  result d = PRejected e ->
  result (CoSimple.co R) = PRejected e.
Proof.
  induction 1 as [|d d' _ IH Hstep]; intros He.
  - exact He.
  - apply IH. destruct (simple_step_result _ _ Hstep) as [E|(_ & x & E)].
    + rewrite <- E. exact He.
    + rewrite E in He. discriminate.
Qed.

(** X4: the simple driver itself rejects the Driver Result in its
    executor or not at all: whenever the Driver Result is to end up
    rejected with [e], either it was rejected with [e] when [co] returned,
    or the routine finished with a promise that is rejected with [e],
    which the Driver Result follows. *)
Theorem simple_co_rejects_only_at_start (d : driver (RState R)) (e : jsval) :
  CoSimple.reachable R d ->
  fate (result d) = Rejected e ->
  result (CoSimple.co R) = PRejected e \/
  exists q, result d = PResolved (VPromise q) /\
            In (VPromise q) (finals (trace d)) /\
            fate q = Rejected e.
Proof.
  intros H Hf. destruct (result d) as [|v|e'] eqn:E.
  - discriminate Hf.
  - destruct (is_promise v) eqn:Hv.
    + destruct v; try discriminate Hv. right. exists p.
      split; [reflexivity|]. split; [|exact Hf].
      destruct (simple_reachable_settles d H) as (_ & Hn). apply Hn. exact E.
    + rewrite (fate_resolved_plain v Hv) in Hf. discriminate Hf.
  - injection Hf as ->. left. apply (simple_reject_in_executor_only d e H E).
Qed.

End SimpleSettleFacts.

(** ** A settled driver is at rest *)

Section Terminal.
Variable R : Routine.

Lemma simple_enter_waiting exec v (d : driver (RState R)) :
  result d = PPending -> subs d = [] ->
  subs (CoSimple.enter R exec v d) <> [] ->
  result (CoSimple.enter R exec v d) = PPending.
Proof.
  intros Hp Hs. unfold CoSimple.enter, CoSimple.next.
  destruct (g_next R (gen d) v) as [s' [[[|] x]|e]].
  - destruct exec; unfold executor, swallow, resolve, log; simpl;
      rewrite Hp; simpl; rewrite Hs; intros F; destruct (F eq_refl).
  - destruct x; destruct exec; unfold executor, swallow, reject, log; simpl;
      rewrite ?Hp; simpl; rewrite ?Hs; intros F;
      reflexivity || destruct (F eq_refl).
  - destruct exec; unfold executor, swallow, reject, log; simpl;
      rewrite ?Hp; simpl; rewrite Hs; intros F; destruct (F eq_refl).
Qed.

Lemma simple_reachable_waiting (d : driver (RState R)) :
  CoSimple.reachable R d -> subs d <> [] -> result d = PPending.
Proof.
  induction 1 as [|d d' Hreach IH Hstep].
  - rewrite simple_co_enter. apply simple_enter_waiting; reflexivity.
  - destruct (simple_reachable_orderly R d Hreach) as (ph & _ & Hsub).
    destruct Hstep as [d d' pre p post E Hfire].
    assert (Hp : result d = PPending).
    { apply IH. rewrite E. destruct pre; discriminate. }
    rewrite Hsub in E. symmetry in E.
    apply outstanding_single in E. destruct E as (-> & -> & ->).
    apply simple_fire_cases in Hfire.
    destruct Hfire as [(v & _ & ->)|(e & _ & ->)].
    + apply simple_enter_waiting; [exact Hp | reflexivity].
    + intros F. destruct (F eq_refl).
Qed.

(** X5: once the Driver Result of the simple driver is settled, no
    callback is registered any more, so that the state never changes
    again and the routine is never resumed again. *)
Theorem simple_co_settled_is_idle (d : driver (RState R)) :
  CoSimple.reachable R d ->
  result d <> PPending ->
  subs d = [] /\ (forall d', steps (CoSimple.fire R) d d' -> d' = d).
Proof.
  intros H Hp.
  assert (Hs : subs d = []).
  { destruct (subs d) as [|p l] eqn:E; [reflexivity|].
    destruct Hp. apply (simple_reachable_waiting d H). rewrite E. discriminate. }
  split; [exact Hs|].
  intros d' Hst. apply (steps_idle _ (CoSimple.fire R) _ _ Hs Hst).
Qed.

Lemma error_enter_waiting exec i (d : driver (RState R)) :
  result d = PPending -> subs d = [] ->
  subs (CoError.enter R exec i d) <> [] ->
  result (CoError.enter R exec i d) = PPending.
Proof.
  intros Hp Hs. unfold CoError.enter. rewrite !error_resume_then_next_eq.
  destruct (resume R (gen d) i) as [s' [[[|] x]|e]]; unfold CoError.next.
  - destruct exec; unfold executor, swallow, resolve, log; simpl;
      rewrite Hp; simpl; rewrite Hs; intros F; destruct (F eq_refl).
  - destruct x; destruct exec; unfold executor, swallow, reject, log; simpl;
      rewrite ?Hp; simpl; rewrite ?Hs; intros F;
      reflexivity || destruct (F eq_refl).
  - destruct exec; unfold executor, swallow, reject, log; simpl;
      rewrite ?Hp; simpl; rewrite Hs; intros F; destruct (F eq_refl).
Qed.

Lemma error_reachable_waiting (d : driver (RState R)) :
  CoError.reachable R d -> subs d <> [] -> result d = PPending.
Proof.
  induction 1 as [|d d' Hreach IH Hstep].
  - rewrite error_co_enter. apply error_enter_waiting; reflexivity.
  - destruct (error_co_one_at_a_time R d Hreach) as ((ph & _ & Hsub) & _).
    destruct Hstep as [d d' pre p post E Hfire].
    assert (Hp : result d = PPending).
    { apply IH. rewrite E. destruct pre; discriminate. }
    rewrite Hsub in E. symmetry in E.
    apply outstanding_single in E. destruct E as (-> & -> & ->).
    apply error_fire_enter in Hfire. destruct Hfire as (j & _ & ->).
    apply error_enter_waiting; [exact Hp | reflexivity].
Qed.

(** X6: once the Driver Result of the driver with error handling is
    settled, no callback is registered any more, so that the state never
    changes again and the routine is never resumed again. *)
Theorem error_co_settled_is_idle (d : driver (RState R)) :
  CoError.reachable R d ->
  result d <> PPending ->
  subs d = [] /\ (forall d', steps (CoError.fire R) d d' -> d' = d).
Proof.
  intros H Hp.
  assert (Hs : subs d = []).
  { destruct (subs d) as [|p l] eqn:E; [reflexivity|].
    destruct Hp. apply (error_reachable_waiting d H). rewrite E. discriminate. }
  split; [exact Hs|].
  intros d' Hst. apply (steps_idle _ (CoError.fire R) _ _ Hs Hst).
Qed.

(** X7: in every state the driver with error handling can reach, at
    most one yielded promise has a callback outstanding, and the history
    is strictly sequential: a resumption is made only at the start or
    right after the promise yielded by the previous resumption has
    settled, with what it settled with; a promise shown as settled has
    settled; and a turn of the event loop fires the one outstanding
    promise, which has settled, and resumes the routine once. *)
Theorem error_co_sequential (d : driver (RState R)) :
  CoError.reachable R d ->
  (length (subs d) <= 1)%nat /\
  sequential (trace d) /\
  (exists ph, phase_of (trace d) = Some ph /\ subs d = outstanding ph) /\
  (forall p, In (ESettled p) (trace d) -> fate p <> Unsettled) /\
  (forall d', step (CoError.fire R) d d' ->
     exists p i, subs d = [p] /\ fate p <> Unsettled /\
       CoError.deliver p = Some i /\
       resumptions d' = resumptions d ++ [i]).
Proof.
  intros H. destruct (error_co_one_at_a_time R d H) as ((ph & Hph & Hsub) & Hl).
  assert (Hseq : sequential (trace d)).
  { unfold sequential. rewrite Hph. discriminate. }
  split; [|split; [|split; [|split]]].
  - exact Hl.
  - exact Hseq.
  - exists ph. auto.
  - intros p. apply sequential_settled. exact Hseq.
  - intros d' Hstep. destruct Hstep as [d d' pre p post E Hf].
    rewrite Hsub in E. symmetry in E.
    apply outstanding_single in E. destruct E as (-> & -> & ->).
    apply error_fire_enter in Hf. destruct Hf as (i & Hd & ->).
    exists p, i. split; [exact Hsub|]. split; [|split; [exact Hd|]].
    + unfold CoError.deliver in Hd. destruct (fate p); discriminate.
    + rewrite error_enter_resumptions_early.
      unfold resumptions, log. simpl.
      rewrite inputs_app. simpl. rewrite app_nil_r. reflexivity.
Qed.

End Terminal.

(** ** More about the driver with error handling *)

Section ErrorMore.
Variable R : Routine.

Lemma error_enter_plain exec i (d : driver (RState R)) s' x :
  resume R (gen d) i = (s', Returns (mkIter false x)) ->
  is_promise x = false ->
  exists k,
    CoError.enter R exec i d =
    if exec
    then reject (VTypeError k)
           (mkDriver s' (result d) (subs d)
              (trace d ++ [EResume i (Returns (mkIter false x))]))
    else log (EUncaught (VTypeError k))
           (mkDriver s' (result d) (subs d)
              (trace d ++ [EResume i (Returns (mkIter false x))])).
Proof.
  intros H Hx. unfold CoError.enter. rewrite !error_resume_then_next_eq, H.
  destruct x; try discriminate; simpl;
    (exists ReadOfUndefined; destruct exec; reflexivity) ||
    (exists NotAFunction; destruct exec; reflexivity).
Qed.

(** Following a run of settled promises, keeping track of who calls. *)
Lemma error_reaches_run_mode s i l s' i' :
  reaches R CoError.deliver s i l s' i' ->
  forall exec (d : driver (RState R)),
    gen d = s -> subs d = [] ->
    exists exec' d',
      gen d' = s' /\ subs d' = [] /\ result d' = result d /\
      resumptions d' ++ [i'] = resumptions d ++ i :: l /\
      run (CoError.fire R) (length l) (CoError.enter R exec i d) =
        CoError.enter R exec' i' d' /\
      (l = [] -> exec' = exec) /\ (l <> [] -> exec' = false).
Proof.
  induction 1 as [s i | s i s1 p j l s' i' H Hd _ IH];
    intros exec d Hg Hs; subst.
  - exists exec, d. repeat split; try reflexivity; try assumption.
    intros F. destruct (F eq_refl).
  - cbn [length run]. rewrite (error_tick_yield R exec _ _ _ _ _ H Hs Hd).
    match goal with
    | |- context [CoError.enter R false j ?D] =>
        destruct (IH false D eq_refl eq_refl)
          as (exec' & d' & Hg' & Hs' & Hr' & Hin & Hrun & He1 & He2)
    end.
    exists exec', d'. repeat split; try assumption.
    + rewrite Hin. unfold resumptions. simpl. rewrite !inputs_app. simpl.
      rewrite !app_nil_r, <- app_assoc. reflexivity.
    + discriminate.
    + intros _. destruct l; [apply He1; reflexivity | apply He2; discriminate].
Qed.

(** X8: the driver with error handling does not check what is yielded
    either; when a not finished resumption yields something that is not a
    promise, the routine is not resumed again, and the [TypeError] of the
    call of [then] rejects the Driver Result at the first resumption only:
    at a later one the Driver Result stays pending. *)
Theorem error_co_non_promise_yield
  (l : list input) (s s' : RState R) (i : input) (x : jsval) :
  reaches R CoError.deliver (g_init R) (Next VUndefined) l s i ->
  resume R s i = (s', Returns (mkIter false x)) ->
  is_promise x = false ->
  let d := run (CoError.fire R) (length l) (CoError.co R) in
  resumptions d = Next VUndefined :: l /\
  subs d = [] /\
  (forall n, run (CoError.fire R) n d = d) /\
  (l = [] -> exists k, result d = PRejected (VTypeError k)) /\
  (l <> [] -> result d = PPending).
Proof.
  intros Hr H Hx. cbv zeta. rewrite error_co_enter.
  destruct (error_reaches_run_mode _ _ _ _ _ Hr true
              (mkDriver (g_init R) PPending [] []) eq_refl eq_refl)
    as (exec' & d' & Hg' & Hs' & Hr' & Hin & Hrun & He1 & He2).
  rewrite Hrun. subst s.
  destruct (error_enter_plain exec' _ _ _ _ H Hx) as (k & ->).
  simpl in Hr'. unfold resumptions in Hin. simpl in Hin.
  assert (Hin' : inputs (trace d' ++ [EResume i (Returns (mkIter false x))])
                 = Next VUndefined :: l).
  { rewrite inputs_app. exact Hin. }
  destruct exec'; unfold reject, log, resumptions; simpl; rewrite Hr'; simpl;
    rewrite inputs_app, Hin', app_nil_r; (repeat split); try assumption.
  - intros n. apply run_idle. exact Hs'.
  - intros _. exists k. reflexivity.
  - intros Hl. discriminate (He2 Hl).
  - intros n. apply run_idle. exact Hs'.
  - intros Hl. discriminate (He1 Hl).
Qed.

Lemma error_enter_resumptions exec i (d : driver (RState R)) :
  resumptions (CoError.enter R exec i d) = resumptions d ++ [i] /\
  gen (CoError.enter R exec i d) = fst (resume R (gen d) i).
Proof.
  unfold CoError.enter. rewrite !error_resume_then_next_eq.
  destruct (resume R (gen d) i) as [s' [[[|] x]|e]]; unfold CoError.next.
  - destruct exec; unfold executor, swallow, resolve, log, resumptions; simpl;
      destruct (is_pending (result d)); simpl;
      rewrite !inputs_app; simpl; rewrite !app_nil_r; auto.
  - destruct x; destruct exec;
      unfold executor, swallow, reject, log, resumptions; simpl;
      try destruct (is_pending (result d)); simpl;
      rewrite !inputs_app; simpl; rewrite ?app_nil_r; auto.
  - destruct exec; unfold executor, swallow, reject, log, resumptions; simpl;
      destruct (is_pending (result d)) eqn:E; simpl; rewrite ?E; simpl;
      rewrite !inputs_app; simpl; rewrite !app_nil_r; auto.
Qed.

Lemma error_step_resumes_once_aux (d d' : driver (RState R)) :
  step (CoError.fire R) d d' ->
  exists p i,
    CoError.deliver p = Some i /\ resumptions d' = resumptions d ++ [i].
Proof.
  intros Hstep. destruct Hstep as [d d' pre p post E Hfire].
  apply error_fire_enter in Hfire. destruct Hfire as (i & Hd & ->).
  exists p, i. split; [exact Hd|].
  destruct (error_enter_resumptions false i
              (log (ESettled p) (set_subs (pre ++ post) d))) as (Hr & _).
  rewrite Hr. unfold resumptions, log. simpl.
  rewrite inputs_app. simpl. rewrite app_nil_r. reflexivity.
Qed.

(** X9: each time an awaited promise settles, the driver with error
    handling resumes the routine exactly once, through [g.next] with the
    value when the promise is fulfilled and through [g.throw] with the
    fault when it is rejected. *)
Theorem error_step_resumes_once (d d' : driver (RState R)) :
  step (CoError.fire R) d d' ->
  exists p i,
    In p (subs d) /\ CoError.deliver p = Some i /\
    resumptions d' = resumptions d ++ [i] /\
    gen d' = fst (resume R (gen d) i).
Proof.
  intros Hstep. destruct Hstep as [d d' pre p post E Hfire].
  apply error_fire_enter in Hfire. destruct Hfire as (i & Hd & ->).
  exists p, i. split; [|split; [exact Hd|]].
  - rewrite E. apply in_or_app. right. left. reflexivity.
  - destruct (error_enter_resumptions false i
                (log (ESettled p) (set_subs (pre ++ post) d))) as (Hr & Hg).
    rewrite Hr, Hg. unfold resumptions, log. simpl.
    rewrite inputs_app. simpl. rewrite app_nil_r. auto.
Qed.

Lemma fate_fulfilled_plain :
  forall (p : promise) (v : jsval), fate p = Fulfilled v -> is_promise v = false.
Proof.
  fix IH 1. intros p v. destruct p as [|v0|e]; simpl.
  - discriminate.
  - destruct v0; try (intros [= <-]; reflexivity). apply IH.
  - discriminate.
Qed.

(** X10: whatever promises the routine yields, [g.next] never hands it
    a promise: a promise resolved with a promise is followed to the value
    it ends with before the routine is resumed. *)
Theorem error_co_resumes_with_plain_values (d : driver (RState R)) :
  CoError.reachable R d -> Forall plain_input (resumptions d).
Proof.
  induction 1 as [|d d' _ IH Hstep].
  - rewrite error_co_enter.
    destruct (error_enter_resumptions true (Next VUndefined)
                (mkDriver (g_init R) PPending [] [])) as (-> & _).
    repeat constructor.
  - destruct (error_step_resumes_once_aux d d' Hstep) as (p & i & Hd & ->).
    apply Forall_app. split; [exact IH|].
    constructor; [|constructor].
    unfold CoError.deliver in Hd.
    destruct (fate p) as [v|e|] eqn:Hf; try discriminate; injection Hd as <-.
    + simpl. apply (fate_fulfilled_plain p v Hf).
    + exact I.
Qed.

End ErrorMore.

(** ** Where rejections come from *)


Section RejectionFacts.
Variable St : Type.







End RejectionFacts.

Section ErrorRejections.
Variable R : Routine.






(** Entered with a value, the two drivers do the same as long as the
    routine yields promises that fulfil and then finishes. *)
Lemma drivers_agree_from s i ws v :
  CoSimple.completes R s i ws v ->
  forall exec (d : driver (RState R)) n,
    gen d = s -> subs d = [] -> result d = PPending ->
    run (CoError.fire R) n (CoError.enter R exec (Next i) d) =
    run (CoSimple.fire R) n (CoSimple.enter R exec i d).
Proof.
  induction 1 as [s i s' v H | s i s1 p w ws v H Hf _ IH];
    intros exec d n Hg Hs Hp; subst s.
  - rewrite (error_enter_return R exec (Next i) _ _ _ H Hp).
    rewrite (simple_enter_return R exec _ _ _ _ H Hp).
    rewrite !run_idle by exact Hs. reflexivity.
  - assert (Hd : CoError.deliver p = Some (Next w)).
    { unfold CoError.deliver. rewrite Hf. reflexivity. }
    destruct n as [|n].
    + simpl. rewrite (error_enter_yield R exec (Next i) _ _ _ H).
      rewrite (simple_enter_yield R exec _ _ _ _ H). reflexivity.
    + cbn [run].
      rewrite (error_tick_yield R exec (Next i) _ _ _ _ H Hs Hd).
      rewrite (simple_tick_yield R exec _ _ _ _ _ H Hs Hf).
      apply IH; reflexivity || exact Hp.
Qed.

(** X12: for a routine that yields promises which all fulfil and then
    finishes, the driver with error handling goes through exactly the
    states of the simple driver, turn after turn: same resumptions, same
    history, same Driver Result. *)
Theorem co_drivers_agree_on_fulfilment (ws : list jsval) (v : jsval) :
  CoSimple.completes R (g_init R) VUndefined ws v ->
  forall n,
    run (CoError.fire R) n (CoError.co R) =
    run (CoSimple.fire R) n (CoSimple.co R).
Proof.
  intros H n. rewrite error_co_enter, simple_co_enter.
  apply (drivers_agree_from _ _ _ _ H); reflexivity.
Qed.

End ErrorRejections.

(** ** More about the hand-written adder *)

Section AdderMore.
Import Adder.

(** X13: the hand-written adder never finishes: whatever the initial
    value and whatever calls of [next] and [throw] are made, every record
    it returns has [done] false. *)
Theorem adder_never_finishes (init : num) (cs : list call) :
  Forall (fun o => forall d v, o = Return d v -> d = false)
         (play cs (adder init)).
Proof. apply adder_never_done. reflexivity. Qed.

Lemma adder_invoke_loop c a :
  state a = loop ->
  state (fst (invoke c a)) = loop /\ forall e, snd (invoke c a) <> Throw e.
Proof.
  intros H.
  assert (Hgo : forall x e,
            state (fst (go x e a)) = loop /\
            forall e', snd (go x e a) <> Throw e').
  { intros x e. unfold go. rewrite H. destruct (truthy e); simpl;
      split; auto; discriminate. }
  destruct c as [x|e|x e]; unfold invoke, next, throw; apply Hgo.
Qed.

Lemma adder_loop_play_returns cs a :
  state a = loop -> Forall (fun o => forall e, o <> Throw e) (play cs a).
Proof.
  revert a. induction cs as [|c cs IH]; intros a H; simpl.
  - constructor.
  - destruct (adder_invoke_loop c a H) as (H1 & H2).
    constructor; [exact H2 | apply IH; exact H1].
Qed.

(** X14: once the first [next()] has been made, no call of the adder
    throws: every fault injected from then on is caught inside [go]. *)
Theorem adder_started_never_throws (init u : num) (cs : list call) :
  Forall (fun o => forall e, o <> Throw e)
         (play (CallNext u :: cs) (adder init)).
Proof.
  simpl. constructor.
  - discriminate.
  - apply adder_loop_play_returns. reflexivity.
Qed.

Lemma adder_falsy_fault_is_next e a :
  truthy e = false ->
  invoke (CallThrow e) a = invoke (CallNext Undefined) a.
Proof.
  intros H. unfold invoke, throw, next, go. rewrite H.
  destruct (state a); reflexivity.
Qed.

(** X15: a truthy fault injected before the first [next()] is thrown
    back to the caller and leaves the adder as it was: after any number of
    such faults it answers the calls that follow as a fresh adder does.
    A falsy value passed to [throw] is no fault at all for [go]: in any
    state [throw] then does what [next()] does. *)
Theorem adder_faults_before_start
  (init : num) (es : list thrown) (cs : list call) :
  Forall (fun e => truthy e = true) es ->
  play (map CallThrow es ++ cs) (adder init) =
    map Throw es ++ play cs (adder init) /\
  (forall e a, truthy e = false ->
               invoke (CallThrow e) a = invoke (CallNext Undefined) a).
Proof.
  intros H. split; [|apply adder_falsy_fault_is_next].
  induction H as [|e es He _ IH]; simpl.
  - reflexivity.
  - unfold throw, go. simpl. rewrite He. simpl. f_equal. exact IH.
Qed.

Lemma adder_loop_running xs a m :
  state a = loop -> done a = false -> sum a = Num m ->
  play (map (fun x => CallNext (Num x)) xs) a =
  map (fun z => Return false (Num z)) (running m xs).
Proof.
  revert a m. induction xs as [|x xs IH]; intros a m Hs Hd Hsum; simpl.
  - reflexivity.
  - unfold next, go. rewrite Hs. simpl. rewrite Hd, Hsum. simpl.
    f_equal. apply IH; reflexivity || assumption.
Qed.

(** X16: without faults the adder keeps a running total: the first
    call returns the initial value, whatever it is given, and each later
    call returns what adding, one after the other and as doubles, all the
    numbers given since to the initial value gives. *)
Theorem adder_running_total (n : float) (u : num) (xs : list float) :
  play (CallNext u :: map (fun x => CallNext (Num x)) xs) (adder (Num n)) =
  Return false (Num n) :: map (fun z => Return false (Num z)) (running n xs).
Proof.
  simpl. f_equal. apply adder_loop_running; reflexivity.
Qed.

Lemma nan_add (y : float) : (nan + y)%float = nan.
Proof. apply Prim2SF_inj. rewrite add_spec. reflexivity. Qed.

Lemma add_undefined s : add s Undefined = NaN.
Proof. destruct s; reflexivity. Qed.

Lemma add_nan x : add NaN x = NaN.
Proof.
  destruct x as [|y]; [reflexivity|].
  unfold NaN, add. rewrite nan_add. reflexivity.
Qed.

Lemma adder_loop_nan xs a :
  state a = loop -> done a = false -> sum a = NaN ->
  play (map CallNext xs) a = repeat (Return false NaN) (length xs).
Proof.
  revert a. induction xs as [|x xs IH]; intros a Hs Hd Hsum; simpl.
  - reflexivity.
  - unfold next, go. rewrite Hs. simpl. rewrite Hd, Hsum, add_nan.
    f_equal. apply IH; reflexivity || assumption.
Qed.

(** X18: a call of [next()] without an argument after the first one
    turns the sum into [NaN], and every addition that follows it, whatever
    it adds, returns [NaN]. *)
Theorem adder_missing_input_poisons_sum (init u : num) (xs : list num) :
  play (CallNext u :: CallNext Undefined :: map CallNext xs) (adder init) =
  Return false init :: repeat (Return false NaN) (S (length xs)).
Proof.
  cbn [play invoke]. f_equal.
  unfold next, go. simpl. rewrite add_undefined.
  f_equal. apply adder_loop_nan; reflexivity.
Qed.

End AdderMore.

(** ** The adder against the generator it stands for *)

Section AdderAgreement.
Import Adder.

Lemma adder_faults_agree es a S L T :
  state a = loop -> done a = false -> lastSum a = L ->
  Forall (fun e => truthy e = true) es ->
  play (map CallThrow es) a =
  AdderGenerator.play (map CallThrow es) (AdderGenerator.AtYield S L T).
Proof.
  intros Hs Hd Hl Hes. revert a S T Hs Hd Hl.
  induction Hes as [|e es He _ IH]; intros a S T Hs Hd Hl; simpl.
  - reflexivity.
  - unfold throw, go, AdderGenerator.to_yield. rewrite Hs, He. simpl.
    rewrite Hd, Hl. f_equal. apply IH; reflexivity.
Qed.

Lemma adder_additions_agree xs es a S L :
  state a = loop -> done a = false -> sum a = S -> temp a = S ->
  xs <> [] \/ es = [] \/ lastSum a = L ->
  Forall (fun e => truthy e = true) es ->
  play (map CallNext xs ++ map CallThrow es) a =
  AdderGenerator.play (map CallNext xs ++ map CallThrow es)
    (AdderGenerator.AtYield S L S).
Proof.
  revert a S L. induction xs as [|x xs IH]; intros a S L Hs Hd Hsum Ht Hc Hes.
  - simpl. destruct Hc as [F|[->|Hl]].
    + destruct (F eq_refl).
    + reflexivity.
    + apply adder_faults_agree; assumption.
  - simpl. unfold next, go, AdderGenerator.to_yield. rewrite Hs. simpl.
    rewrite Hd, Hsum, Ht. f_equal.
    apply IH; try reflexivity; [|exact Hes]. right. right. reflexivity.
Qed.

(** X19: as long as no addition follows a fault, the hand-written adder
    returns what the generator of the README returns: on a first call,
    then additions, then truthy faults, the two agree call for call,
    provided at least one addition was made before the first fault. *)
Theorem adder_agrees_with_generator
  (init u : num) (xs : list num) (es : list thrown) :
  xs <> [] \/ es = [] ->
  Forall (fun e => truthy e = true) es ->
  play (CallNext u :: map CallNext xs ++ map CallThrow es) (adder init) =
  AdderGenerator.play (CallNext u :: map CallNext xs ++ map CallThrow es)
    (AdderGenerator.Start init).
Proof.
  intros Hc Hes. cbn [play AdderGenerator.play invoke AdderGenerator.invoke].
  f_equal. apply adder_additions_agree; try reflexivity; [|exact Hes].
  destruct Hc as [H|H]; [left; exact H | right; left; exact H].
Qed.

End AdderAgreement.

(** ** The further properties at work *)

Section MoreRuns.
Import Routines.

Lemma simple_co_unhandled_stalls :
  reaches unhandled CoSimple.deliver (g_init unhandled) (Next VUndefined) []
    (g_init unhandled) (Next VUndefined) /\
  g_next unhandled (g_init unhandled) VUndefined
    = ([], Returns (mkIter false (VPromise (PRejected toFail)))) /\
  fate (PRejected toFail) = Rejected toFail /\
  forall n,
    result (run (CoSimple.fire unhandled) (1 + n) (CoSimple.co unhandled))
      = PPending /\
    resumptions (run (CoSimple.fire unhandled) (1 + n) (CoSimple.co unhandled))
      = [Next VUndefined].
Proof.
  split; [apply reaches_here|]. split; [reflexivity|]. split; [reflexivity|].
  intros n.
  destruct (simple_co_stalls_on_rejection unhandled [] _ _ _ _ _
              (reaches_here unhandled CoSimple.deliver _ _) eq_refl eq_refl n)
    as (Hr & Hi & _).
  split; [exact Hr | exact Hi].
Defined.

Lemma raising_reaches_simple :
  reaches raising CoSimple.deliver (g_init raising) (Next VUndefined)
    [Next (VNum 1)] [Raises (VError "boom")] (Next (VNum 1)).
Proof.
  eapply reaches_await; [reflexivity | reflexivity |]. apply reaches_here.
Defined.

Lemma simple_co_raising_stays_pending :
  reaches raising CoSimple.deliver (g_init raising) (Next VUndefined)
    [Next (VNum 1)] [Raises (VError "boom")] (Next (VNum 1)) /\
  g_next raising [Raises (VError "boom")] (VNum 1)
    = ([], Raises (VError "boom")) /\
  result (run (CoSimple.fire raising) 1 (CoSimple.co raising)) = PPending /\
  resumptions (run (CoSimple.fire raising) 1 (CoSimple.co raising))
    = [Next VUndefined; Next (VNum 1)].
Proof.
  split; [exact raising_reaches_simple|]. split; [reflexivity|].
  destruct (simple_co_routine_raises raising _ _ _ _ _
              raising_reaches_simple eq_refl) as (Hi & _ & _ & _ & Hr).
  split; [apply Hr; discriminate | exact Hi].
Defined.

Lemma simple_co_immediate_settles_once :
  CoSimple.reachable immediate (CoSimple.co immediate) /\
  result (CoSimple.co immediate)
    = hd PPending (settle_calls (trace (CoSimple.co immediate))) /\
  In (VNum 42) (finals (trace (CoSimple.co immediate))).
Proof.
  split; [apply CoSimple.reachable_co|].
  destruct (simple_co_settles_once immediate _
              (CoSimple.reachable_co immediate)) as (H1 & H2 & _).
  split; [exact H1 | apply H2; reflexivity].
Defined.

Lemma lateReject_reachable_simple :
  CoSimple.reachable lateReject
    (tick (CoSimple.fire lateReject) (CoSimple.co lateReject)).
Proof.
  eapply CoSimple.reachable_step; [apply CoSimple.reachable_co|].
  apply step_fire with (pre := []) (p := PResolved (VNum 1)) (post := []);
    reflexivity.
Defined.

Lemma simple_co_lateReject_follows :
  CoSimple.reachable lateReject
    (tick (CoSimple.fire lateReject) (CoSimple.co lateReject)) /\
  fate (result (tick (CoSimple.fire lateReject) (CoSimple.co lateReject)))
    = Rejected (VError "late") /\
  fate (result (CoSimple.co lateReject)) = Unsettled /\
  (result (CoSimple.co lateReject) = PRejected (VError "late") \/
   exists q,
     result (tick (CoSimple.fire lateReject) (CoSimple.co lateReject))
       = PResolved (VPromise q) /\
     In (VPromise q)
        (finals (trace (tick (CoSimple.fire lateReject)
                          (CoSimple.co lateReject)))) /\
     fate q = Rejected (VError "late")).
Proof.
  split; [exact lateReject_reachable_simple|]. split; [reflexivity|].
  split; [reflexivity|].
  apply (simple_co_rejects_only_at_start lateReject _ (VError "late")
           lateReject_reachable_simple eq_refl).
Defined.

Lemma simple_co_immediate_idle :
  CoSimple.reachable immediate (CoSimple.co immediate) /\
  result (CoSimple.co immediate) <> PPending /\
  subs (CoSimple.co immediate) = [].
Proof.
  split; [apply CoSimple.reachable_co|].
  assert (H : result (CoSimple.co immediate) <> PPending) by discriminate.
  split; [exact H|].
  destruct (simple_co_settled_is_idle immediate _
              (CoSimple.reachable_co immediate) H) as (Hs & _).
  exact Hs.
Defined.

Lemma unhandled_reachable :
  CoError.reachable unhandled
    (tick (CoError.fire unhandled) (CoError.co unhandled)).
Proof.
  eapply CoError.reachable_step; [apply CoError.reachable_co|].
  apply step_fire with (pre := []) (p := PRejected toFail) (post := []);
    reflexivity.
Defined.

Lemma error_co_unhandled_idle :
  CoError.reachable unhandled
    (tick (CoError.fire unhandled) (CoError.co unhandled)) /\
  result (tick (CoError.fire unhandled) (CoError.co unhandled))
    = PRejected toFail /\
  subs (tick (CoError.fire unhandled) (CoError.co unhandled)) = [].
Proof.
  split; [exact unhandled_reachable|]. split; [reflexivity|].
  assert (H : result (tick (CoError.fire unhandled) (CoError.co unhandled))
              <> PPending) by discriminate.
  destruct (error_co_settled_is_idle unhandled _ unhandled_reachable H)
    as (Hs & _).
  exact Hs.
Defined.

Lemma recovers_reachable :
  CoError.reachable recovers
    (tick (CoError.fire recovers) (CoError.co recovers)).
Proof.
  eapply CoError.reachable_step; [apply CoError.reachable_co|].
  apply step_fire with (pre := []) (p := PResolved (VNum 1)) (post := []);
    reflexivity.
Defined.

Lemma error_co_recovers_sequential :
  CoError.reachable recovers
    (tick (CoError.fire recovers) (CoError.co recovers)) /\
  subs (tick (CoError.fire recovers) (CoError.co recovers))
    = [PRejected toFail] /\
  sequential (trace (tick (CoError.fire recovers) (CoError.co recovers))).
Proof.
  split; [exact recovers_reachable|]. split; [reflexivity|].
  destruct (error_co_sequential recovers _ recovers_reachable) as (_ & H & _).
  exact H.
Defined.

Lemma plainSecond_reaches :
  reaches plainSecond CoError.deliver (g_init plainSecond) (Next VUndefined)
    [Next (VNum 1)] [yields (VNum 5)] (Next (VNum 1)).
Proof.
  eapply reaches_await; [reflexivity | reflexivity |]. apply reaches_here.
Defined.

Lemma error_co_plain_second_stays_pending :
  reaches plainSecond CoError.deliver (g_init plainSecond) (Next VUndefined)
    [Next (VNum 1)] [yields (VNum 5)] (Next (VNum 1)) /\
  resume plainSecond [yields (VNum 5)] (Next (VNum 1))
    = ([], Returns (mkIter false (VNum 5))) /\
  is_promise (VNum 5) = false /\
  result (run (CoError.fire plainSecond) 1 (CoError.co plainSecond))
    = PPending /\
  resumptions (run (CoError.fire plainSecond) 1 (CoError.co plainSecond))
    = [Next VUndefined; Next (VNum 1)].
Proof.
  split; [exact plainSecond_reaches|]. split; [reflexivity|].
  split; [reflexivity|].
  destruct (error_co_non_promise_yield plainSecond _ _ _ _ _
              plainSecond_reaches eq_refl eq_refl) as (Hi & _ & _ & _ & Hr).
  split; [apply Hr; discriminate | exact Hi].
Defined.

Lemma unhandled_step :
  step (CoError.fire unhandled) (CoError.co unhandled)
    (tick (CoError.fire unhandled) (CoError.co unhandled)).
Proof.
  apply step_fire with (pre := []) (p := PRejected toFail) (post := []);
    reflexivity.
Defined.

Lemma error_step_unhandled_throws_in :
  step (CoError.fire unhandled) (CoError.co unhandled)
    (tick (CoError.fire unhandled) (CoError.co unhandled)) /\
  exists p i,
    In p (subs (CoError.co unhandled)) /\ CoError.deliver p = Some i /\
    resumptions (tick (CoError.fire unhandled) (CoError.co unhandled))
      = resumptions (CoError.co unhandled) ++ [i].
Proof.
  split; [exact unhandled_step|].
  destruct (error_step_resumes_once unhandled _ _ unhandled_step)
    as (p & i & Hp & Hd & Hr & _).
  exists p, i. auto.
Defined.

Lemma nested_reachable :
  CoError.reachable nested (tick (CoError.fire nested) (CoError.co nested)).
Proof.
  eapply CoError.reachable_step; [apply CoError.reachable_co|].
  apply step_fire with (pre := [])
    (p := PResolved (VPromise (PResolved (VNum 7)))) (post := []);
    reflexivity.
Defined.

Lemma error_co_nested_resumes_with_value :
  CoError.reachable nested (tick (CoError.fire nested) (CoError.co nested)) /\
  resumptions (tick (CoError.fire nested) (CoError.co nested))
    = [Next VUndefined; Next (VNum 7)] /\
  Forall plain_input
    (resumptions (tick (CoError.fire nested) (CoError.co nested))).
Proof.
  split; [exact nested_reachable|]. split; [reflexivity|].
  apply (error_co_resumes_with_plain_values nested _ nested_reachable).
Defined.


Lemma co_drivers_agree_on_sumThree :
  CoSimple.completes sumThree (g_init sumThree) VUndefined
    [VNum 1; VNum 2; VNum 3] (VNum 6) /\
  forall n,
    run (CoError.fire sumThree) n (CoError.co sumThree) =
    run (CoSimple.fire sumThree) n (CoSimple.co sumThree).
Proof.
  split; [exact sumThree_completes|].
  apply (co_drivers_agree_on_fulfilment sumThree _ _ sumThree_completes).
Defined.

Lemma adder_agrees_on_runner_prefix :
  ([Adder.Num 1; Adder.Num 2] <> [] \/ [Adder.BOO] = []) /\
  Forall (fun e => Adder.truthy e = true) [Adder.BOO] /\
  Adder.play
    (Adder.CallNext Adder.Undefined
       :: map Adder.CallNext [Adder.Num 1; Adder.Num 2]
          ++ map Adder.CallThrow [Adder.BOO])
    (Adder.adder (Adder.Num 0)) =
  AdderGenerator.play
    (Adder.CallNext Adder.Undefined
       :: map Adder.CallNext [Adder.Num 1; Adder.Num 2]
          ++ map Adder.CallThrow [Adder.BOO])
    (AdderGenerator.Start (Adder.Num 0)).
Proof.
  assert (H : [Adder.Num 1; Adder.Num 2] <> [] \/ [Adder.BOO] = [])
    by (left; discriminate).
  assert (Ht : Forall (fun e => Adder.truthy e = true) [Adder.BOO])
    by (repeat constructor).
  split; [exact H|]. split; [exact Ht|].
  apply (adder_agrees_with_generator (Adder.Num 0) Adder.Undefined
           [Adder.Num 1; Adder.Num 2] [Adder.BOO] H Ht).
Defined.

Lemma adder_BOO_before_start :
  Forall (fun e => Adder.truthy e = true) [Adder.BOO; Adder.Val (Adder.Num 5)] /\
  Adder.play
    (map Adder.CallThrow [Adder.BOO; Adder.Val (Adder.Num 5)]
       ++ [Adder.CallNext Adder.Undefined; Adder.CallNext (Adder.Num 1)])
    (Adder.adder (Adder.Num 0)) =
  [Adder.Throw Adder.BOO; Adder.Throw (Adder.Val (Adder.Num 5));
   Adder.Return false (Adder.Num 0); Adder.Return false (Adder.Num 1)].
Proof.
  assert (Ht : Forall (fun e => Adder.truthy e = true)
                 [Adder.BOO; Adder.Val (Adder.Num 5)])
    by (repeat constructor).
  split; [exact Ht|].
  destruct (adder_faults_before_start (Adder.Num 0)
              [Adder.BOO; Adder.Val (Adder.Num 5)]
              [Adder.CallNext Adder.Undefined; Adder.CallNext (Adder.Num 1)] Ht)
    as (H & _).
  exact H.
Defined.

End MoreRuns.
